(** * Authentication store: reducer and sagas

    A shallow embedding of the authentication slice of the store
    (action types, action creators, [authReducer]) and of the sagas that
    drive it ([logInWithCredentials], [registerWithCredentials],
    [logInAfterRegister] under three [takeLatest] watchers), followed by the
    properties proved about them. *)

From stdpp Require Import base option gmap strings list pretty.

Set Warnings "-register-all".
Set Default Proof Using "Type".

(** ** JavaScript values *)

Module JS.

(** Plain JavaScript data.  Objects are finite maps from property names to
    values; numbers are the integral ones (ids, counters), which the
    program only carries around.  Strings are taken to be ASCII. *)
Inductive val :=
| VUndefined
| VNull
| VBool (b : bool)
| VNum (n : Z)
| VStr (s : string)
| VObj (o : gmap string val).

(** Thrown and rejected values; the outcome of a promise. *)
Inductive outcome :=
| Resolved (v : val)
| Rejected (e : val).

(** [v == null]: reading a property of such a value, or destructuring it,
    throws a TypeError. *)
Definition nullish (v : val) : bool :=
  match v with
  | VUndefined | VNull => true
  | _ => false
  end.

(** The error object thrown by the engine on such a read. *)
Definition TypeError : val := VObj {[ "name" := VStr "TypeError" ]}.

(** The characters of a string as index properties, from index [i] on. *)
Fixpoint index_props (i : nat) (s : string) : gmap string val :=
  match s with
  | EmptyString => ∅
  | String c s' => <[pretty i := VStr (String c EmptyString)]> (index_props (S i) s')
  end.

(** Own enumerable properties: what [{...v}] copies.  Spreading
    [undefined], [null], a boolean or a number copies nothing. *)
Definition own_props (v : val) : gmap string val :=
  match v with
  | VObj o => o
  | VStr s => index_props 0 s
  | _ => ∅
  end.

(** [v.k] for a [v] that is not nullish: a missing property reads as
    [undefined].  Inherited and non-enumerable properties ([length],
    methods) are not modelled; the program reads none. *)
Definition field (v : val) (k : string) : val :=
  default VUndefined (own_props v !! k).

(** [v.k] in general: [None] stands for the TypeError thrown when [v] is
    nullish. *)
Definition read (v : val) (k : string) : option val :=
  if nullish v then None else Some (field v k).

End JS.
Export JS.

(** ** Action types, action creators and the reducer *)

Module Auth.

(** authActionTypes.js *)
Definition LOG_IN_START : string := "LOG_IN_START".
Definition LOG_IN_SUCCESS : string := "LOG_IN_SUCCESS".
Definition LOG_IN_FAILURE : string := "LOG_IN_FAILURE".
Definition REGISTER_START : string := "REGISTER_START".
Definition REGISTER_SUCCESS : string := "REGISTER_SUCCESS".
Definition REGISTER_FAILURE : string := "REGISTER_FAILURE".
Definition LOG_OUT : string := "LOG_OUT".

(** An action is a plain object [{type, payload}]. *)
Definition mk_action (type : string) (payload : val) : gmap string val :=
  <["payload" := payload]> {[ "type" := VStr type ]}.

(** authActions.js *)
Definition logInStart (credentials : val) := mk_action LOG_IN_START credentials.
Definition logInSuccess (user : val) := mk_action LOG_IN_SUCCESS user.
Definition logInFailure (error : val) := mk_action LOG_IN_FAILURE error.
Definition registerStart (credentials : val) := mk_action REGISTER_START credentials.
Definition registerSuccess (user : val) := mk_action REGISTER_SUCCESS user.
Definition registerFailure (error : val) := mk_action REGISTER_FAILURE error.
Definition logOut : gmap string val := {[ "type" := VStr LOG_OUT ]}.

(** [action.type], when it is a string. *)
Definition action_type (action : gmap string val) : option string :=
  match action !! "type" with
  | Some (VStr t) => Some t
  | _ => None
  end.

(** [action.payload] *)
Definition action_payload (action : gmap string val) : val :=
  default VUndefined (action !! "payload").

(** authReducer.js *)
Definition INITIAL_STATE_obj : gmap string val :=
  <["error" := VNull]> {[ "currentUser" := VNull ]}.

Definition INITIAL_STATE : val := VObj INITIAL_STATE_obj.

(** The default parameter [state = INITIAL_STATE] applies to [undefined]
    only. *)
Definition or_initial (state : val) : val :=
  match state with
  | VUndefined => INITIAL_STATE
  | _ => state
  end.

Definition authReducer (state : val) (action : gmap string val) : val :=
  let state := or_initial state in
  match action_type action with
  | Some t =>
      if decide (t = LOG_IN_SUCCESS) then
        VObj (<["error" := VNull]>
               (<["currentUser" := action_payload action]> (own_props state)))
      else if decide (t = LOG_IN_FAILURE ∨ t = REGISTER_FAILURE) then
        VObj (<["error" := action_payload action]> (own_props state))
      else if decide (t = LOG_OUT) then
        INITIAL_STATE
      else if decide (t = REGISTER_SUCCESS) then
        VObj (<["registerSuccess" := VBool true]> (own_props state))
      else state
  | None => state
  end.

(** The state after a sequence of actions, from the initial state on. *)
Definition reduce_all (state : val) (actions : list (gmap string val)) : val :=
  foldl authReducer state actions.

(** The fields the user interface selects. *)
Definition currentUser (state : val) : val := field state "currentUser".
Definition error (state : val) : val := field state "error".
Definition registerSuccess_flag (state : val) : val := field state "registerSuccess".

End Auth.
Export Auth.

(** ** The reducer over object references

    The same function with the state held by reference, so that what it
    allocates, what it returns and what it leaves alone can be told apart.
    The heap lists the objects in allocation order; [INITIAL_STATE] is the
    object the module allocates when it is loaded. *)

Module Ref.

Definition loc := nat.

Definition INITIAL_STATE_loc : loc := 0.

Definition initial_heap : list (gmap string val) := [INITIAL_STATE_obj].

(** An object literal allocates. *)
Definition alloc (h : list (gmap string val)) (o : gmap string val)
  : list (gmap string val) * loc :=
  (h ++ [o], length h).

Definition deref (h : list (gmap string val)) (l : loc) : gmap string val :=
  default ∅ (h !! l).

(** [state] is [None] for [undefined] and a reference otherwise. *)
Definition authReducer_ref (h : list (gmap string val)) (state : option loc)
    (action : gmap string val) : list (gmap string val) * loc :=
  let state := default INITIAL_STATE_loc state in
  match action_type action with
  | Some t =>
      if decide (t = LOG_IN_SUCCESS) then
        alloc h (<["error" := VNull]>
                  (<["currentUser" := action_payload action]> (deref h state)))
      else if decide (t = LOG_IN_FAILURE ∨ t = REGISTER_FAILURE) then
        alloc h (<["error" := action_payload action]> (deref h state))
      else if decide (t = LOG_OUT) then
        (h, INITIAL_STATE_loc)
      else if decide (t = REGISTER_SUCCESS) then
        alloc h (<["registerSuccess" := VBool true]> (deref h state))
      else (h, state)
  | None => (h, state)
  end.

(** The value a state argument stands for. *)
Definition state_val (h : list (gmap string val)) (state : option loc) : val :=
  match state with
  | None => VUndefined
  | Some l => VObj (deref h l)
  end.

End Ref.

(** ** The sagas (authSagas.js) *)

Module Saga.

(** [axios.post(url, body)]: the one capability the sagas use.  Whether and
    how the request settles is up to the environment. *)
Record request := { url : string; body : val }.

(** The promise returned by an [async] function that awaits one request:
    [p_then] is what the function makes of the way the request settles. *)
Record promise := { p_request : request; p_then : outcome → outcome }.

Definition logIn (email password : val) : promise :=
  {| p_request :=
       {| url := "/login";
          body := VObj (<["password" := password]> {[ "email" := email ]}) |};
     p_then := λ r,
       match r with
       | Rejected e => Rejected e
       | Resolved response =>
           match read response "data" with
           | None => Rejected TypeError
           | Some data =>
               match read data "accessToken" with
               | None => Rejected TypeError
               | Some accessToken =>
                   Resolved (VObj (own_props (field data "user")
                                   ∪ {[ "token" := accessToken ]}))
               end
           end
       end |}.

Definition register (email password firstName lastName : val) : promise :=
  {| p_request :=
       {| url := "/register";
          body := VObj (<["lastName" := lastName]>
                        (<["firstName" := firstName]>
                         (<["password" := password]> {[ "email" := email ]}))) |};
     p_then := λ r,
       match r with
       | Rejected e => Rejected e
       | Resolved _ => Resolved VUndefined
       end |}.

(** A stretch of a generator that runs without waiting: [put]s, then the
    end of the generator or an exception that leaves it. *)
Inductive saga :=
| Return
| Raise (e : val)
| YieldPut (action : gmap string val) (k : saga).

(** A generator of this module once called: binding its parameter throws,
    or it runs up to [yield <promise>] and goes on from the way the promise
    settles. *)
Inductive generator :=
| Throws (e : val)
| YieldPromise (p : promise) (k : outcome → saga).

Fixpoint seq (s k : saga) : saga :=
  match s with
  | Return => k
  | Raise e => Raise e
  | YieldPut a s' => YieldPut a (seq s' k)
  end.

(** [yield g; k] for an iterator [g]: the middleware runs it in place, and
    an exception that leaves it is thrown at the [yield]. *)
Definition yield_iterator (g : generator) (k : saga) : generator :=
  match g with
  | Throws e => Throws e
  | YieldPromise p kp => YieldPromise p (λ r, seq (kp r) k)
  end.

(** The [try]/[catch] of [logInWithCredentials] from the [yield] on.  The
    reducer never throws, so neither does [put]. *)
Definition logIn_settled (r : outcome) : saga :=
  match r with
  | Resolved user => YieldPut (logInSuccess user) Return
  | Rejected error => YieldPut (logInFailure error) Return
  end.

Definition logInWithCredentials (arg : gmap string val) : generator :=
  let payload := action_payload arg in
  if nullish payload then Throws TypeError else
  let email := field payload "email" in
  let password := field payload "password" in
  YieldPromise (logIn email password) logIn_settled.

Definition register_settled (email password firstName lastName : val)
    (r : outcome) : saga :=
  match r with
  | Resolved _ =>
      YieldPut (registerSuccess
                  (VObj (<["lastName" := lastName]>
                         (<["firstName" := firstName]>
                          (<["password" := password]> {[ "email" := email ]})))))
               Return
  | Rejected error => YieldPut (registerFailure error) Return
  end.

Definition registerWithCredentials (arg : gmap string val) : generator :=
  let payload := action_payload arg in
  if nullish payload then Throws TypeError else
  let email := field payload "email" in
  let password := field payload "password" in
  let firstName := field payload "firstName" in
  let lastName := field payload "lastName" in
  YieldPromise (register email password firstName lastName)
               (register_settled email password firstName lastName).

Definition logInAfterRegister (arg : gmap string val) : generator :=
  let payload := action_payload arg in
  if nullish payload then Throws TypeError else
  let email := field payload "email" in
  let password := field payload "password" in
  yield_iterator
    (logInWithCredentials
       {[ "payload" := VObj (<["password" := password]> {[ "email" := email ]}) ]})
    Return.

(** The three [takeLatest] watchers that [authSagas] starts. *)
Inductive watcher := OnLogInStart | OnRegisterStart | OnRegisterSuccess.

Definition pattern (w : watcher) : string :=
  match w with
  | OnLogInStart => LOG_IN_START
  | OnRegisterStart => REGISTER_START
  | OnRegisterSuccess => REGISTER_SUCCESS
  end.

Definition worker (w : watcher) : gmap string val → generator :=
  match w with
  | OnLogInStart => logInWithCredentials
  | OnRegisterStart => registerWithCredentials
  | OnRegisterSuccess => logInAfterRegister
  end.

(** The watcher that takes an action: the patterns are distinct. *)
Definition taken_by (action : gmap string val) : option watcher :=
  match action_type action with
  | Some t =>
      if decide (t = LOG_IN_START) then Some OnLogInStart
      else if decide (t = REGISTER_START) then Some OnRegisterStart
      else if decide (t = REGISTER_SUCCESS) then Some OnRegisterSuccess
      else None
  | None => None
  end.

End Saga.
Export Saga.

(** ** The store with the saga middleware

    One step per thing that happens to the running application: the user
    interface dispatches an action, or a request settles.  [takeLatest]
    keeps the task it forked last and cancels it, if it is still running,
    before it forks the next one; a cancelled task is not resumed when its
    request settles.  An exception that leaves a worker propagates to the
    root saga and ends every saga. *)

Module Middleware.

#[global] Instance watcher_eq_dec : EqDecision watcher.
Proof. solve_decision. Defined.

(** A task waiting for its request. *)
Record task := { tid : nat; awaited : promise; resumed : outcome → saga }.

Inductive origin := FromUI | FromTask (id : nat).

#[global] Instance origin_eq_dec : EqDecision origin.
Proof. solve_decision. Defined.

Record middleware := {
  state : val;                      (* the [auth] slice of the store *)
  lastTask : watcher → option task; (* per watcher: its last task, while that runs *)
  next_id : nat;                    (* the id of the next task *)
  aborted : bool;                   (* the root saga has ended with an error *)
  requests : list (nat * request);  (* the requests made, with the task that made each *)
  dispatched : list (origin * gmap string val) (* the actions the reducer has seen *)
}.

(** [createStore] dispatches an action of its own, with no state yet. *)
Definition init : middleware :=
  {| state := authReducer VUndefined {[ "type" := VStr "@@redux/INIT" ]};
     lastTask := λ _, None;
     next_id := 0;
     aborted := false;
     requests := [];
     dispatched := [] |}.

Definition set_lastTask (w : watcher) (t : option task) (m : middleware) : middleware :=
  {| state := state m;
     lastTask := λ w', if decide (w' = w) then t else lastTask m w';
     next_id := next_id m;
     aborted := aborted m;
     requests := requests m;
     dispatched := dispatched m |}.

(** The action passes the reducer first. *)
Definition reduce (from : origin) (action : gmap string val) (m : middleware)
  : middleware :=
  {| state := authReducer (state m) action;
     lastTask := lastTask m;
     next_id := next_id m;
     aborted := aborted m;
     requests := requests m;
     dispatched := dispatched m ++ [(from, action)] |}.

(** An uncaught exception: every watcher and every task is cancelled. *)
Definition abort (m : middleware) : middleware :=
  {| state := state m;
     lastTask := λ _, None;
     next_id := next_id m;
     aborted := true;
     requests := requests m;
     dispatched := dispatched m |}.

(** Run a new worker up to its [yield <promise>]; the request is made. *)
Definition fork (w : watcher) (g : generator) (m : middleware) : middleware :=
  match g with
  | Throws _ => abort m
  | YieldPromise p k =>
      {| state := state m;
         lastTask := λ w', if decide (w' = w)
                           then Some {| tid := next_id m; awaited := p; resumed := k |}
                           else lastTask m w';
         next_id := S (next_id m);
         aborted := aborted m;
         requests := requests m ++ [(next_id m, p_request p)];
         dispatched := dispatched m |}
  end.

Definition takeLatest (w : watcher) (action : gmap string val) (m : middleware)
  : middleware :=
  fork w (worker w action) (set_lastTask w None m).

Definition dispatch (from : origin) (action : gmap string val) (m : middleware)
  : middleware :=
  let m := reduce from action m in
  if aborted m then m else
  match taken_by action with
  | Some w => takeLatest w action m
  | None => m
  end.

(** Is task [id] still the running task of watcher [w]? *)
Definition running (w : watcher) (id : nat) (m : middleware) : bool :=
  match lastTask m w with
  | Some t => bool_decide (tid t = id)
  | None => false
  end.

(** Run task [id] of watcher [w] from where it was resumed.  A [put] that
    gets the task cancelled ends it there. *)
Fixpoint run (w : watcher) (id : nat) (s : saga) (m : middleware) : middleware :=
  match s with
  | Return => if running w id m then set_lastTask w None m else m
  | Raise _ => abort m
  | YieldPut a k =>
      let m := dispatch (FromTask id) a m in
      if running w id m then run w id k m else m
  end.

(** The watchers [authSagas] starts. *)
Definition authSagas : list watcher := [OnLogInStart; OnRegisterStart; OnRegisterSuccess].

(** The watcher whose running task has this id, with the task. *)
Definition waiting (id : nat) (m : middleware) : option (watcher * task) :=
  head (omap (λ w, match lastTask m w with
                   | Some t => if decide (tid t = id) then Some (w, t) else None
                   | None => None
                   end) authSagas).

Inductive event :=
| Dispatch (action : gmap string val)  (* [store.dispatch] from the user interface *)
| Settle (id : nat) (r : outcome).     (* the request of task [id] settles *)

Definition step (m : middleware) (ev : event) : middleware :=
  match ev with
  | Dispatch a => dispatch FromUI a m
  | Settle id r =>
      match waiting id m with
      | Some (w, t) => run w id (resumed t (p_then (awaited t) r)) m
      | None => m
      end
  end.

Definition steps (m : middleware) (evs : list event) : middleware :=
  foldl step m evs.

(** The actions task [id] has put, in order. *)
Definition put_by (id : nat) (m : middleware) : list (gmap string val) :=
  omap (λ d, if decide (d.1 = FromTask id) then Some d.2 else None) (dispatched m).

(** The requests task [id] has made, in order. *)
Definition requests_by (id : nat) (m : middleware) : list request :=
  omap (λ q, if decide (q.1 = id) then Some q.2 else None) (requests m).

End Middleware.
Export Middleware.

(** ** Lanes, runs and the invariant of the running application *)

Module Trace.

(** The two lanes the user interface starts. *)
Inductive lane := Login | Register.

Definition lane_watcher (l : lane) : watcher :=
  match l with
  | Login => OnLogInStart
  | Register => OnRegisterStart
  end.

Definition start (l : lane) (credentials : val) : gmap string val :=
  match l with
  | Login => logInStart credentials
  | Register => registerStart credentials
  end.

(** The call a lane makes for these credentials. *)
Definition capability (l : lane) (credentials : val) : promise :=
  match l with
  | Login => logIn (field credentials "email") (field credentials "password")
  | Register =>
      register (field credentials "email") (field credentials "password")
               (field credentials "firstName") (field credentials "lastName")
  end.

Definition success (l : lane) (credentials result : val) : gmap string val :=
  match l with
  | Login => logInSuccess result
  | Register =>
      registerSuccess
        (VObj (<["lastName" := field credentials "lastName"]>
               (<["firstName" := field credentials "firstName"]>
                (<["password" := field credentials "password"]>
                 {[ "email" := field credentials "email" ]}))))
  end.

Definition failure (l : lane) (error : val) : gmap string val :=
  match l with
  | Login => logInFailure error
  | Register => registerFailure error
  end.

(** The terminal action of a lane for the way its call ended. *)
Definition terminal (l : lane) (credentials : val) (o : outcome) : gmap string val :=
  match o with
  | Resolved v => success l credentials v
  | Rejected e => failure l e
  end.

(** The states the application can be in. *)
Definition reachable (m : middleware) : Prop := ∃ evs, m = steps init evs.

(** An event that leaves the invocation [n] of lane [l] alone: it is not
    another start of the lane and not the settling of [n]'s request, and an
    action that a watcher takes carries a payload. *)
Definition quiet (l : lane) (n : nat) (ev : event) : Prop :=
  match ev with
  | Dispatch a =>
      taken_by a ≠ Some (lane_watcher l)
      ∧ (taken_by a = None ∨ nullish (action_payload a) = false)
  | Settle id _ => id ≠ n
  end.

(** The step from [m] on [ev] is one in which [a] is dispatched, by the
    user interface or by a saga. *)
Definition dispatches (m : middleware) (ev : event) (a : gmap string val) : Prop :=
  ∃ from, dispatched (step m ev) = dispatched m ++ [(from, a)].

(** What a task of watcher [w] may put: an action no watcher takes, or,
    from the register lane, a REGISTER_SUCCESS with a payload. *)
Definition benign (w : watcher) (a : gmap string val) : Prop :=
  taken_by a = None
  ∨ (w = OnRegisterStart ∧ taken_by a = Some OnRegisterSuccess
     ∧ nullish (action_payload a) = false).

(** A waiting task of this program: however its call ends, it puts one
    such action and returns. *)
Definition program_task (w : watcher) (t : task) : Prop :=
  ∀ o, ∃ a, resumed t o = YieldPut a Return ∧ benign w a.

Record wf (m : middleware) : Prop := {
  wf_fresh : ∀ w t, lastTask m w = Some t → tid t < next_id m;
  wf_program : ∀ w t, lastTask m w = Some t → program_task w t;
  wf_distinct : ∀ w w' t t',
    lastTask m w = Some t → lastTask m w' = Some t' → tid t = tid t' → w = w';
  wf_log : ∀ i a, (FromTask i, a) ∈ dispatched m → i < next_id m;
  wf_requests : ∀ i q, (i, q) ∈ requests m → i < next_id m;
  wf_aborted : aborted m = true → ∀ w, lastTask m w = None;
  wf_silent : ∀ w t, lastTask m w = Some t → put_by (tid t) m = []
}.

(** A registration that the server turns down. *)
Definition failing_credentials : val :=
  VObj (<["lastName" := VStr "B"]>
        (<["firstName" := VStr "A"]>
         (<["password" := VStr "y"]> {[ "email" := VStr "c@d.com" ]}))).

Definition failed_registration : middleware :=
  steps init [Dispatch (registerStart failing_credentials);
              Settle 0 (Rejected (VStr "duplicate email"))].

End Trace.
Export Trace.

(** ** The components (Login.js, Register.js, PrivateRoute.js, Home.js)

    The parts of the components that decide what is dispatched, where the
    user is sent and what is read from the store; the markup is left out.
    A component's [useState] cells are passed in and returned. *)

Module Components.

(** [if (v)], [!v], [v && w], [v ? a : b]: the values that count as true. *)
Definition truthy (v : val) : bool :=
  match v with
  | VUndefined | VNull => false
  | VBool b => b
  | VNum n => negb (n =? 0)%Z
  | VStr s => match s with EmptyString => false | _ => true end
  | VObj _ => true
  end.

(** [handleChange], the same in both forms:
    [setCredentials({...credentials, [e.target.name]: e.target.value})].
    The value of an input is a string. *)
Definition handleChange (credentials : gmap string val) (name value : string)
  : gmap string val :=
  <[name := VStr value]> credentials.

(** The form after a sequence of changes, given as names and values. *)
Definition typed (credentials : gmap string val) (changes : list (string * string))
  : gmap string val :=
  foldl (λ c '(name, value), handleChange c name value) credentials changes.

(** Login.js *)
Module LogInForm.

Definition credentials : gmap string val :=
  <["password" := VStr ""]> {[ "email" := VStr "" ]}.

(** The names of the inputs of the form. *)
Definition inputs : list string := ["email"; "password"].

(** What [handleSubmit] dispatches. *)
Definition handleSubmit (credentials : gmap string val) : list (gmap string val) :=
  if truthy (field (VObj credentials) "email")
     && truthy (field (VObj credentials) "password")
  then [logInStart (VObj credentials)]
  else [].

(** The effect on [currentUser]: where it navigates, if it does. *)
Definition effect (currentUser : val) : option string :=
  if truthy currentUser then Some "/" else None.

End LogInForm.

(** Register.js *)
Module RegisterForm.

Definition credentials : gmap string val :=
  <["password" := VStr ""]>
    (<["email" := VStr ""]>
       (<["lastName" := VStr ""]> {[ "firstName" := VStr "" ]})).

Definition inputs : list string := ["firstName"; "lastName"; "email"; "password"].

(** [handleSubmit] sets [submitted] and dispatches, whatever the fields
    hold: the new [submitted] and what is dispatched. *)
Definition handleSubmit (credentials : gmap string val)
  : bool * list (gmap string val) :=
  (true, [registerStart (VObj credentials)]).

(** ["form-group" + (submitted && !v ? " has-error" : "")] *)
Definition className (submitted : bool) (v : val) : string :=
  "form-group" ++ (if submitted && negb (truthy v) then " has-error" else "").

(** The class of the group of each input, by the name of the input. *)
Definition group_className (submitted : bool) (credentials : gmap string val)
    (input : string) : string :=
  if decide (input = "email")
  then className submitted (field (VObj credentials) "username")
  else className submitted (field (VObj credentials) input).

(** Whether the [help-block] under an input is shown. *)
Definition help_block (submitted : bool) (credentials : gmap string val)
    (input : string) : bool :=
  submitted && negb (truthy (field (VObj credentials) input)).

(** The effect on [registerSuccess]. *)
Definition effect (success : val) : option string :=
  if truthy success then Some "/" else None.

End RegisterForm.

(** PrivateRoute.js: the component, or a redirect. *)
Inductive element :=
| Element (Component : string)
| Navigate (to : string).

Definition PrivateRoute (Component : string) (auth : val) : element :=
  if truthy auth then Element Component else Navigate "/login".


(** An event the components can cause: a request settles, or one of the
    forms or the logout button dispatches. *)
Definition from_components (ev : event) : Prop :=
  match ev with
  | Settle _ _ => True
  | Dispatch a =>
      a = logOut
      ∨ (∃ c, a ∈ LogInForm.handleSubmit c)
      ∨ (∃ c, a ∈ (RegisterForm.handleSubmit c).2)
  end.

End Components.
Export Components.

(** ** More about the running application *)

Module Running.

(** The four actions with which a lane ends. *)
Definition is_terminal (a : gmap string val) : Prop :=
  action_type a = Some LOG_IN_SUCCESS ∨ action_type a = Some LOG_IN_FAILURE
  ∨ action_type a = Some REGISTER_SUCCESS ∨ action_type a = Some REGISTER_FAILURE.

(** Every waiting task is a worker of its watcher, called on an action
    with a payload and stopped at its [yield]. *)
Definition from_worker (m : middleware) : Prop :=
  ∀ w t, lastTask m w = Some t →
    ∃ a, nullish (action_payload a) = false
         ∧ worker w a = YieldPromise (awaited t) (resumed t).

(** An action that a watcher takes carries a payload. *)
Definition well_formed (ev : event) : Prop :=
  match ev with
  | Dispatch a => taken_by a = None ∨ nullish (action_payload a) = false
  | Settle _ _ => True
  end.

(** The user interface does not dispatch this type of action. *)
Definition never_dispatches (type : string) (ev : event) : Prop :=
  match ev with
  | Dispatch a => action_type a ≠ Some type
  | Settle _ _ => True
  end.

End Running.
Export Running.

(** * Properties *)

(** ** Reading objects and actions *)

Section fields.
Implicit Types (o : gmap string val) (v s : val) (k : string).

Lemma field_obj_insert o k v : field (VObj (<[k := v]> o)) k = v.
Proof. unfold field; simpl. by rewrite lookup_insert_eq. Qed.

Lemma field_obj_insert_ne o k k' v :
  k ≠ k' → field (VObj (<[k := v]> o)) k' = field (VObj o) k'.
Proof. intros Hk. unfold field; simpl. by rewrite lookup_insert_ne. Qed.

Lemma field_own_props s k : field (VObj (own_props s)) k = field s k.
Proof. done. Qed.

Lemma action_type_mk t v : action_type (mk_action t v) = Some t.
Proof. done. Qed.

Lemma action_payload_mk t v : action_payload (mk_action t v) = v.
Proof. unfold action_payload, mk_action. by rewrite lookup_insert_eq. Qed.

Lemma or_initial_idemp s : or_initial (or_initial s) = or_initial s.
Proof. by destruct s. Qed.
End fields.

(** ** The reducer, one case of the [switch] at a time *)

Section reducer_cases.
Implicit Types (s u e c : val) (a : gmap string val).

Lemma authReducer_logInSuccess s u :
  authReducer s (logInSuccess u)
  = VObj (<["error" := VNull]> (<["currentUser" := u]> (own_props (or_initial s)))).
Proof.
  unfold authReducer, logInSuccess.
  rewrite action_type_mk, action_payload_mk. by rewrite decide_True.
Qed.

Lemma authReducer_logInFailure s e :
  authReducer s (logInFailure e) = VObj (<["error" := e]> (own_props (or_initial s))).
Proof.
  unfold authReducer, logInFailure.
  rewrite action_type_mk, action_payload_mk.
  rewrite decide_False by done. rewrite decide_True; [done | by left].
Qed.

Lemma authReducer_registerFailure s e :
  authReducer s (registerFailure e) = VObj (<["error" := e]> (own_props (or_initial s))).
Proof.
  unfold authReducer, registerFailure.
  rewrite action_type_mk, action_payload_mk.
  rewrite decide_False by done. rewrite decide_True; [done | by right].
Qed.

Lemma authReducer_registerSuccess s c :
  authReducer s (registerSuccess c)
  = VObj (<["registerSuccess" := VBool true]> (own_props (or_initial s))).
Proof.
  unfold authReducer, registerSuccess. rewrite action_type_mk.
  rewrite decide_False by done.
  rewrite decide_False by (intros [?|?]; done).
  rewrite decide_False by done. by rewrite decide_True.
Qed.

Lemma authReducer_logOut s : authReducer s logOut = INITIAL_STATE.
Proof. done. Qed.

Lemma authReducer_LOG_OUT s a :
  action_type a = Some LOG_OUT → authReducer s a = INITIAL_STATE.
Proof. intros Ha. unfold authReducer. rewrite Ha. done. Qed.

(** An action whose type is none of the five the [switch] lists. *)
Lemma authReducer_default s a :
  action_type a ≠ Some LOG_IN_SUCCESS →
  action_type a ≠ Some LOG_IN_FAILURE →
  action_type a ≠ Some REGISTER_FAILURE →
  action_type a ≠ Some LOG_OUT →
  action_type a ≠ Some REGISTER_SUCCESS →
  authReducer s a = or_initial s.
Proof.
  intros H1 H2 H3 H4 H5. unfold authReducer.
  destruct (action_type a) as [t|]; [|done].
  rewrite !decide_False; [done|..];
    first [by intros -> | by intros [-> | ->]].
Qed.

(** The start actions only concern the sagas. *)
Lemma authReducer_logInStart s c : authReducer s (logInStart c) = or_initial s.
Proof. by apply authReducer_default. Qed.

Lemma authReducer_registerStart s c : authReducer s (registerStart c) = or_initial s.
Proof. by apply authReducer_default. Qed.

(** The reducer never returns [undefined]. *)
Lemma or_initial_authReducer s a : or_initial (authReducer s a) = authReducer s a.
Proof.
  unfold authReducer.
  destruct (action_type a) as [t|]; [|apply or_initial_idemp].
  repeat (destruct (decide _); [done|]). apply or_initial_idemp.
Qed.
End reducer_cases.


(** ** What the reducer does to [currentUser], [error] and [registerSuccess] *)

(** Go through the [switch] on an action type [t]. *)
Ltac reducer_cases t :=
  repeat match goal with
  | |- context [decide (Some t = Some ?c)] =>
      destruct (decide (Some t = Some c)) as [[= ->]|?]
  | |- context [decide (t = ?c)] => destruct (decide (t = c)) as [->|?]
  | |- context [decide (?c = ?c')] => destruct (decide (c = c')) as [?|?]
  | |- context [decide (?P ∨ ?Q)] => destruct (decide (P ∨ Q)) as [[?|?]|?]
  end; simplify_eq; try done; try tauto.

Section reducer_fields.
Implicit Types (s u e c : val) (a : gmap string val).

Lemma currentUser_authReducer s a :
  currentUser (authReducer s a) =
    if decide (action_type a = Some LOG_IN_SUCCESS) then action_payload a
    else if decide (action_type a = Some LOG_OUT) then VNull
    else currentUser (or_initial s).
Proof.
  unfold authReducer, currentUser.
  destruct (action_type a) as [t|]; [|done].
  reducer_cases t.
  all: rewrite ?field_obj_insert_ne by done; by rewrite ?field_obj_insert.
Qed.

Lemma error_authReducer s a :
  error (authReducer s a) =
    if decide (action_type a = Some LOG_IN_SUCCESS) then VNull
    else if decide (action_type a = Some LOG_IN_FAILURE
                    ∨ action_type a = Some REGISTER_FAILURE) then action_payload a
    else if decide (action_type a = Some LOG_OUT) then VNull
    else error (or_initial s).
Proof.
  unfold authReducer, error.
  destruct (action_type a) as [t|]; reducer_cases t.
  all: rewrite ?field_obj_insert_ne by done; by rewrite ?field_obj_insert.
Qed.

Lemma registerSuccess_flag_authReducer s a :
  registerSuccess_flag (authReducer s a) =
    if decide (action_type a = Some LOG_OUT) then VUndefined
    else if decide (action_type a = Some REGISTER_SUCCESS) then VBool true
    else registerSuccess_flag (or_initial s).
Proof.
  unfold authReducer, registerSuccess_flag.
  destruct (action_type a) as [t|]; [|done].
  reducer_cases t.
  all: rewrite ?field_obj_insert_ne by done; by rewrite ?field_obj_insert.
Qed.
End reducer_fields.



(** C5, as the claim has it, fails: the state after LOG_OUT is not
    [{currentUser: null, error: null, registerSuccess: false}]; it has no
    [registerSuccess] at all, which reads as [undefined]. *)
Lemma logOut_state_has_no_registerSuccess :
  authReducer (reduce_all INITIAL_STATE []) logOut
  ≠ VObj (<["registerSuccess" := VBool false]> INITIAL_STATE_obj)
  ∧ registerSuccess_flag (authReducer (reduce_all INITIAL_STATE []) logOut)
    ≠ VBool false.
Proof.
  split.
  - intros H. apply (f_equal registerSuccess_flag) in H.
    vm_compute in H. discriminate.
  - vm_compute. discriminate.
Qed.

(** C5 (amended).  Whatever the state the store starts from and whatever
    actions have been dispatched, after LOG_OUT the state is [INITIAL_STATE],
    namely [{currentUser: null, error: null}]: its [registerSuccess] is not
    [false] but absent. *)
Theorem logOut_resets (s : val) (actions : list (gmap string val)) :
  authReducer (reduce_all s actions) logOut = INITIAL_STATE
  ∧ INITIAL_STATE = VObj (<["error" := VNull]> {[ "currentUser" := VNull ]})
  ∧ INITIAL_STATE_obj !! "registerSuccess" = None
  ∧ registerSuccess_flag (authReducer (reduce_all s actions) logOut) = VUndefined.
Proof. by rewrite authReducer_logOut. Qed.

(** C6.  From any state, LOG_IN_SUCCESS with user [u] followed by
    LOG_IN_FAILURE with error [e] gives a state whose [currentUser] is [u],
    as it was before the failure, and whose [error] is [e]. *)
Theorem logInFailure_keeps_currentUser (s u e : val) :
  currentUser (authReducer s (logInSuccess u)) = u
  ∧ currentUser (authReducer (authReducer s (logInSuccess u)) (logInFailure e)) = u
  ∧ error (authReducer (authReducer s (logInSuccess u)) (logInFailure e)) = e.
Proof.
  assert (currentUser (authReducer s (logInSuccess u)) = u) as Hu.
  { rewrite currentUser_authReducer. rewrite decide_True by done.
    apply action_payload_mk. }
  split; [done|]. split.
  - rewrite currentUser_authReducer. rewrite !decide_False by done.
    by rewrite or_initial_authReducer.
  - rewrite error_authReducer. rewrite decide_False by done.
    rewrite decide_True by (by left). apply action_payload_mk.
Qed.

(** C9.  With no state yet and an action that none of the cases of the
    [switch] that build a state takes, such as the one the store dispatches
    when it is created, the reducer returns [INITIAL_STATE]; that is
    [{currentUser: null, error: null}], with no [registerSuccess]. *)
Theorem authReducer_undefined_state (a : gmap string val) :
  action_type a ≠ Some LOG_IN_SUCCESS →
  action_type a ≠ Some LOG_IN_FAILURE →
  action_type a ≠ Some REGISTER_FAILURE →
  action_type a ≠ Some REGISTER_SUCCESS →
  authReducer VUndefined a = INITIAL_STATE
  ∧ INITIAL_STATE = VObj (<["error" := VNull]> {[ "currentUser" := VNull ]})
  ∧ dom INITIAL_STATE_obj = {[ "currentUser"; "error" ]}
  ∧ INITIAL_STATE_obj !! "registerSuccess" = None.
Proof.
  intros H1 H2 H3 H4. split; [|split; [done|split; [|done]]].
  - destruct (decide (action_type a = Some LOG_OUT)) as [Ho|Ho].
    + by apply authReducer_LOG_OUT.
    + by rewrite authReducer_default.
  - unfold INITIAL_STATE_obj. rewrite dom_insert_L, dom_singleton_L. set_solver.
Qed.

Lemma authReducer_undefined_state_witness :
  authReducer VUndefined {[ "type" := VStr "@@redux/INIT" ]} = INITIAL_STATE
  ∧ state init = INITIAL_STATE.
Proof.
  split; [|reflexivity].
  apply (authReducer_undefined_state {[ "type" := VStr "@@redux/INIT" ]});
    vm_compute; discriminate.
Defined.

(** C10.  Once REGISTER_SUCCESS has set [registerSuccess] to [true], it
    stays [true] through any actions none of which is LOG_OUT: another
    REGISTER_FAILURE, LOG_IN_SUCCESS or LOG_IN_FAILURE leaves it. *)
Theorem registerSuccess_sticks (s c : val) (actions : list (gmap string val)) :
  Forall (λ a, action_type a ≠ Some LOG_OUT) actions →
  registerSuccess_flag (reduce_all (authReducer s (registerSuccess c)) actions)
  = VBool true.
Proof.
  intros Hall.
  assert (registerSuccess_flag (authReducer s (registerSuccess c)) = VBool true) as H0.
  { rewrite authReducer_registerSuccess. apply field_obj_insert. }
  revert H0. generalize (authReducer s (registerSuccess c)) as s0.
  induction Hall as [|a actions Ha _ IH]; intros s0 H0; [done|].
  simpl. apply IH.
  rewrite registerSuccess_flag_authReducer.
  rewrite decide_False by done.
  case_decide; [done|].
  destruct s0; try done.
Qed.

Lemma registerSuccess_sticks_witness :
  registerSuccess_flag
    (reduce_all (authReducer INITIAL_STATE (registerSuccess (VStr "c")))
       [registerFailure (VStr "e"); logInSuccess (VStr "u"); logInFailure (VStr "e")])
  = VBool true.
Proof.
  apply (registerSuccess_sticks INITIAL_STATE (VStr "c")).
  repeat constructor; vm_compute; discriminate.
Defined.

(** ** The reducer allocates and never writes *)

Section reducer_ref.
Import Ref.
Implicit Types (h : list (gmap string val)) (a : gmap string val).

Lemma alloc_spec h o :
  (∀ l, l < length h → (alloc h o).1 !! l = h !! l)
  ∧ (alloc h o).2 = length h
  ∧ deref (alloc h o).1 (alloc h o).2 = o
  ∧ length (alloc h o).1 = S (length h).
Proof.
  unfold alloc, deref; simpl. repeat split.
  - intros l Hl. by apply lookup_app_l.
  - by rewrite list_lookup_middle.
  - rewrite length_app. simpl. lia.
Qed.

Lemma own_props_state_val h state :
  h !! INITIAL_STATE_loc = Some INITIAL_STATE_obj →
  own_props (or_initial (state_val h state))
  = deref h (default INITIAL_STATE_loc state).
Proof.
  intros H0. destruct state as [l|]; simpl; [done|].
  unfold deref. by rewrite H0.
Qed.

Lemma or_initial_state_val h state :
  h !! INITIAL_STATE_loc = Some INITIAL_STATE_obj →
  or_initial (state_val h state) = VObj (deref h (default INITIAL_STATE_loc state)).
Proof.
  intros H0. destruct state as [l|]; simpl; [done|].
  unfold deref, INITIAL_STATE. by rewrite H0.
Qed.
(** Which reference the reducer returns. *)
Lemma authReducer_ref_loc h state a :
  (authReducer_ref h state a).2
  = if decide (action_type a = Some LOG_IN_SUCCESS
               ∨ action_type a = Some LOG_IN_FAILURE
               ∨ action_type a = Some REGISTER_FAILURE
               ∨ action_type a = Some REGISTER_SUCCESS) then length h
    else if decide (action_type a = Some LOG_OUT) then INITIAL_STATE_loc
    else default INITIAL_STATE_loc state.
Proof.
  unfold authReducer_ref.
  destruct (action_type a) as [t|].
  2:{ rewrite decide_False by (by intros [?|[?|[?|?]]]). by rewrite decide_False. }
  destruct (decide (t = LOG_IN_SUCCESS)) as [->|H1].
  { by rewrite decide_True by auto. }
  destruct (decide (t = LOG_IN_FAILURE ∨ t = REGISTER_FAILURE)) as [H2|H2].
  { rewrite decide_True; [done|]. destruct H2 as [-> | ->]; auto. }
  destruct (decide (t = LOG_OUT)) as [->|H3].
  { rewrite decide_False by (by intros [?|[?|[?|?]]]). by rewrite decide_True. }
  destruct (decide (t = REGISTER_SUCCESS)) as [->|H4].
  { by rewrite decide_True by auto. }
  rewrite decide_False.
  - rewrite decide_False; [done|]. by intros [= ->].
  - intros [[= ->]|[[= ->]|[[= ->]|[= ->]]]]; auto.
Qed.
End reducer_ref.

(** C8, as the claim has it, fails: given an action the [switch] does not
    list, the reducer returns the very object it was given, and given
    LOG_OUT the one [INITIAL_STATE] object; neither is a new one. *)
Lemma authReducer_ref_returns_input :
  let h := Ref.initial_heap ++ [<["currentUser" := VStr "u"]> INITIAL_STATE_obj] in
  Ref.authReducer_ref h (Some 1) (logInStart VNull) = (h, 1)
  ∧ Ref.authReducer_ref h (Some 1) logOut = (h, Ref.INITIAL_STATE_loc).
Proof. split; reflexivity. Qed.

(** C8 (amended).  The reducer is a total function of the state and the
    action.  On a heap that holds [INITIAL_STATE], for a state argument that
    is [undefined] or a reference to an object: every object that existed
    before the call, the input state among them, is the same after it; the
    reference returned holds the state [authReducer] computes; it is a newly
    allocated object for LOG_IN_SUCCESS, LOG_IN_FAILURE, REGISTER_FAILURE and
    REGISTER_SUCCESS, the [INITIAL_STATE] object for LOG_OUT and the input
    itself for any other action, with nothing allocated in these two cases.
    So a state that differs from the input is never the input object. *)
Theorem authReducer_ref_pure (h : list (gmap string val)) (state : option Ref.loc)
    (a : gmap string val) :
  h !! Ref.INITIAL_STATE_loc = Some INITIAL_STATE_obj →
  (∀ l, state = Some l → l < length h) →
  let h' := (Ref.authReducer_ref h state a).1 in
  let r := (Ref.authReducer_ref h state a).2 in
  (∀ l, l < length h → h' !! l = h !! l)
  ∧ r < length h'
  ∧ VObj (Ref.deref h' r) = authReducer (Ref.state_val h state) a
  ∧ (r = length h ∧ length h' = S (length h)
     ∨ h' = h ∧ (r = default Ref.INITIAL_STATE_loc state ∨ r = Ref.INITIAL_STATE_loc))
  ∧ r = (if decide (action_type a = Some LOG_IN_SUCCESS
                    ∨ action_type a = Some LOG_IN_FAILURE
                    ∨ action_type a = Some REGISTER_FAILURE
                    ∨ action_type a = Some REGISTER_SUCCESS) then length h
         else if decide (action_type a = Some LOG_OUT) then Ref.INITIAL_STATE_loc
         else default Ref.INITIAL_STATE_loc state)
  ∧ (∀ l, state = Some l →
       authReducer (Ref.state_val h state) a ≠ Ref.state_val h state → r ≠ l).
Proof.
  intros H0 Hstate h' r.
  assert (default Ref.INITIAL_STATE_loc state < length h) as Hlt.
  { destruct state as [l|]; simpl; [by apply Hstate|].
    by apply lookup_lt_Some in H0. }
  assert ((∀ l, l < length h → h' !! l = h !! l)
          ∧ r < length h'
          ∧ VObj (Ref.deref h' r) = authReducer (Ref.state_val h state) a
          ∧ (r = length h ∧ length h' = S (length h)
             ∨ h' = h ∧ (r = default Ref.INITIAL_STATE_loc state
                         ∨ r = Ref.INITIAL_STATE_loc))) as Hmain.
  { subst h' r. unfold Ref.authReducer_ref, authReducer.
    rewrite (or_initial_state_val h state H0). simpl own_props.
    destruct (action_type a) as [t|].
    2:{ simpl. repeat split; auto. }
    repeat (destruct (decide _);
            [ first
                [ match goal with
                  | |- context [Ref.alloc h ?o] =>
                      destruct (alloc_spec h o) as (Hold & Hr & Hd & Hlen);
                      rewrite Hd, Hr, Hlen; repeat split; auto; lia
                  end
                | simpl; repeat split; auto;
                  [ by apply lookup_lt_Some in H0
                  | unfold Ref.deref; by rewrite H0 ] ]
            | ]).
    simpl. repeat split; auto. }
  destruct Hmain as (Hold & Hr & Hv & Hnew).
  split; [done|]. split; [done|]. split; [done|]. split; [done|].
  split; [apply authReducer_ref_loc|].
  intros l -> Hne ->. simpl in *. apply Hne. rewrite <- Hv.
  unfold Ref.deref. rewrite Hold by (by apply Hstate). done.
Qed.

Lemma authReducer_ref_pure_witness :
  let a := logInSuccess (VObj {[ "token" := VStr "t1" ]}) in
  let h' := (Ref.authReducer_ref Ref.initial_heap (Some 0) a).1 in
  let r := (Ref.authReducer_ref Ref.initial_heap (Some 0) a).2 in
  h' !! 0 = Some INITIAL_STATE_obj ∧ r = 1
  ∧ VObj (Ref.deref h' r) = authReducer INITIAL_STATE a.
Proof.
  intros a h' r.
  destruct (authReducer_ref_pure Ref.initial_heap (Some 0) a) as (Hold & _ & Hv & _).
  - reflexivity.
  - intros l [= <-]. simpl. lia.
  - split; [|split].
    + apply (Hold 0). simpl. lia.
    + reflexivity.
    + exact Hv.
Defined.

(** ** The workers *)

Section workers.
Implicit Types (a : gmap string val) (w : watcher) (o : outcome).

Lemma taken_by_None_mk t v :
  t ≠ LOG_IN_START → t ≠ REGISTER_START → t ≠ REGISTER_SUCCESS →
  taken_by (mk_action t v) = None.
Proof.
  intros H1 H2 H3. unfold taken_by. rewrite action_type_mk.
  by rewrite !decide_False.
Qed.

Lemma taken_by_pattern a w :
  taken_by a = Some w ↔ action_type a = Some (pattern w).
Proof.
  unfold taken_by. destruct (action_type a) as [t|]; [|by destruct w].
  repeat (destruct (decide _) as [->|?]); split; intros H; simplify_eq;
    try done; by destruct w; simplify_eq.
Qed.

Lemma taken_by_start l c : taken_by (start l c) = Some (lane_watcher l).
Proof. by destruct l. Qed.

Lemma action_payload_start l c : action_payload (start l c) = c.
Proof. destruct l; apply action_payload_mk. Qed.

Lemma logIn_settled_benign w o :
  ∃ a, logIn_settled o = YieldPut a Return ∧ benign w a.
Proof.
  destruct o as [user|e]; simpl; eexists; (split; [done|]); left;
    by apply taken_by_None_mk.
Qed.

Lemma worker_nullish w a :
  nullish (action_payload a) = true → worker w a = Throws TypeError.
Proof.
  intros Hn. destruct w; simpl;
    unfold logInWithCredentials, registerWithCredentials, logInAfterRegister;
    by rewrite Hn.
Qed.

Lemma worker_logIn a :
  nullish (action_payload a) = false →
  worker OnLogInStart a
  = YieldPromise (logIn (field (action_payload a) "email")
                        (field (action_payload a) "password")) logIn_settled.
Proof. intros Hn. simpl. unfold logInWithCredentials. by rewrite Hn. Qed.

Lemma worker_register a :
  nullish (action_payload a) = false →
  worker OnRegisterStart a
  = YieldPromise
      (register (field (action_payload a) "email")
                (field (action_payload a) "password")
                (field (action_payload a) "firstName")
                (field (action_payload a) "lastName"))
      (register_settled (field (action_payload a) "email")
                        (field (action_payload a) "password")
                        (field (action_payload a) "firstName")
                        (field (action_payload a) "lastName")).
Proof. intros Hn. simpl. unfold registerWithCredentials. by rewrite Hn. Qed.

Lemma worker_afterRegister a :
  nullish (action_payload a) = false →
  worker OnRegisterSuccess a
  = YieldPromise (logIn (field (action_payload a) "email")
                        (field (action_payload a) "password"))
                 (λ r, seq (logIn_settled r) Return).
Proof. intros Hn. simpl. unfold logInAfterRegister. by rewrite Hn. Qed.

(** Resumed, the iterator that [logInAfterRegister] yields does what
    [logInWithCredentials] does, and the generator then returns. *)
Lemma seq_logIn_settled o : seq (logIn_settled o) Return = logIn_settled o.
Proof. by destruct o. Qed.

Lemma worker_program w a :
  nullish (action_payload a) = false →
  ∃ p k, worker w a = YieldPromise p k
         ∧ ∀ id, program_task w {| tid := id; awaited := p; resumed := k |}.
Proof.
  intros Hn. destruct w.
  - rewrite worker_logIn by done. do 2 eexists. split; [done|].
    intros id o. apply logIn_settled_benign.
  - rewrite worker_register by done. do 2 eexists. split; [done|].
    intros id [v|e]; simpl; eexists; (split; [done|]).
    + right. repeat split.
    + left. by apply taken_by_None_mk.
  - rewrite worker_afterRegister by done. do 2 eexists. split; [done|].
    intros id o. simpl. rewrite seq_logIn_settled.
    apply logIn_settled_benign.
Qed.
End workers.

(** ** One dispatch *)

Section dispatch.
Implicit Types (a : gmap string val) (w : watcher) (m : middleware).

Lemma dispatch_spec from a m :
  let m' := dispatch from a m in
  state m' = authReducer (state m) a
  ∧ dispatched m' = dispatched m ++ [(from, a)]
  ∧ ((aborted m = true ∨ taken_by a = None)
     ∧ (∀ w, lastTask m' w = lastTask m w)
     ∧ next_id m' = next_id m ∧ aborted m' = aborted m
     ∧ requests m' = requests m
     ∨ aborted m = false
       ∧ (∃ w, taken_by a = Some w) ∧ nullish (action_payload a) = true
       ∧ (∀ w, lastTask m' w = None)
       ∧ next_id m' = next_id m ∧ aborted m' = true
       ∧ requests m' = requests m
     ∨ aborted m = false ∧ nullish (action_payload a) = false
       ∧ ∃ w p k, taken_by a = Some w ∧ worker w a = YieldPromise p k
         ∧ (∀ w', lastTask m' w'
                  = if decide (w' = w)
                    then Some {| tid := next_id m; awaited := p; resumed := k |}
                    else lastTask m w')
         ∧ next_id m' = S (next_id m) ∧ aborted m' = false
         ∧ requests m' = requests m ++ [(next_id m, p_request p)]).
Proof.
  intros m'. subst m'. unfold dispatch. simpl.
  destruct (aborted m) eqn:Hab.
  { repeat split; auto. left. repeat split; auto. }
  destruct (taken_by a) as [w|] eqn:Hw.
  2:{ repeat split; auto. left. repeat split; auto. }
  unfold takeLatest.
  destruct (nullish (action_payload a)) eqn:Hn.
  - rewrite worker_nullish by done. simpl.
    repeat split; auto. right. left. repeat split; eauto.
  - destruct (worker_program w a Hn) as (p & k & Hwk & _).
    rewrite Hwk. simpl.
    repeat split; auto. right. right. repeat split; auto.
    exists w, p, k. repeat split; auto.
    intros w'. by destruct (decide (w' = w)).
Qed.
End dispatch.

(** ** Settling a request *)

Section settle.
Implicit Types (a : gmap string val) (w : watcher) (m : middleware) (t : task).

Lemma waiting_Some id m w t :
  waiting id m = Some (w, t) → lastTask m w = Some t ∧ tid t = id.
Proof.
  unfold waiting, authSagas. simpl.
  repeat case_match; simplify_eq; simpl; intros; simplify_eq; done.
Qed.

Lemma waiting_None id m w t :
  waiting id m = None → lastTask m w = Some t → tid t ≠ id.
Proof.
  unfold waiting, authSagas. simpl. intros Hw Ht Hid.
  destruct w; rewrite Ht in Hw; rewrite decide_True in Hw by done;
    repeat case_match; simplify_eq.
Qed.

Lemma waiting_lastTask m w t :
  wf m → lastTask m w = Some t → waiting (tid t) m = Some (w, t).
Proof.
  intros Hwf Ht.
  destruct (waiting (tid t) m) as [[w' t']|] eqn:Hw.
  - apply waiting_Some in Hw as [Ht' Hid].
    assert (w' = w) as -> by (eapply wf_distinct; eauto).
    congruence.
  - by eapply waiting_None in Hw.
Qed.

Lemma put_by_snoc id o a (l : list (origin * gmap string val)) :
  omap (λ d : origin * gmap string val,
          if decide (d.1 = FromTask id) then Some d.2 else None) (l ++ [(o, a)])
  = omap (λ d : origin * gmap string val,
            if decide (d.1 = FromTask id) then Some d.2 else None) l
    ++ (if decide (o = FromTask id) then [a] else []).
Proof. rewrite omap_app. simpl. by case_decide. Qed.

Lemma running_lastTask w id m :
  running w id m = true ↔ ∃ t, lastTask m w = Some t ∧ tid t = id.
Proof.
  unfold running. destruct (lastTask m w) as [t|].
  - rewrite bool_decide_eq_true. split; [by eauto|].
    by intros (t' & [= <-] & ?).
  - split; [done|]. by intros (t' & ? & ?).
Qed.

Lemma settle_spec m w t r :
  wf m → lastTask m w = Some t →
  ∃ a, resumed t (p_then (awaited t) r) = YieldPut a Return
       ∧ benign w a
       ∧ aborted m = false
       ∧ step m (Settle (tid t) r)
         = set_lastTask w None (dispatch (FromTask (tid t)) a m).
Proof.
  intros Hwf Ht.
  destruct (wf_program m Hwf w t Ht (p_then (awaited t) r)) as (a & Hres & Hben).
  assert (aborted m = false) as Hab.
  { destruct (aborted m) eqn:Hab; [|done].
    by rewrite (wf_aborted m Hwf Hab w) in Ht. }
  exists a. repeat split; try done.
  simpl. rewrite (waiting_lastTask m w t Hwf Ht). rewrite Hres. simpl.
  assert (running w (tid t) (dispatch (FromTask (tid t)) a m) = true) as ->; [|done].
  apply running_lastTask. exists t. split; [|done].
  destruct (dispatch_spec (FromTask (tid t)) a m) as (_ & _ & Hcases).
  destruct Hcases as [(_ & Hsl & _)|[(_ & (w' & Hw') & Hn & _)|(_ & Hn & w' & p & k & Hw' & _ & Hsl & _)]].
  - by rewrite Hsl.
  - destruct Hben as [Hb|(_ & _ & Hb)]; congruence.
  - destruct Hben as [Hb|(-> & Hb & _)]; [congruence|].
    rewrite Hsl. assert (w' = OnRegisterSuccess) as -> by congruence.
    by rewrite decide_False.
Qed.
End settle.

(** ** One step, and the invariant *)

Section steps.
Implicit Types (a : gmap string val) (w : watcher) (m : middleware) (t : task).

(** What a step can do to the tasks and to the log: a waiting task is
    one that waited before or the one task forked in this step, and the
    only task that puts is one that waited and is gone afterwards. *)
Lemma step_spec m ev :
  wf m →
  let m' := step m ev in
  next_id m ≤ next_id m'
  ∧ (∃ wn, ∀ w t', lastTask m' w = Some t' →
       lastTask m w = Some t'
       ∨ w = wn ∧ tid t' = next_id m ∧ next_id m' = S (next_id m)
         ∧ program_task w t')
  ∧ (dispatched m' = dispatched m
     ∨ ∃ o a, dispatched m' = dispatched m ++ [(o, a)]
         ∧ (o = FromUI
            ∨ ∃ w t, o = FromTask (tid t) ∧ lastTask m w = Some t
                     ∧ lastTask m' w = None))
  ∧ (aborted m' = true → ∀ w, lastTask m' w = None)
  ∧ (requests m' = requests m
     ∨ ∃ q, requests m' = requests m ++ [(next_id m, q)]
            ∧ next_id m' = S (next_id m)).
Proof.
  intros Hwf m'. subst m'. destruct ev as [a|id r].
  - simpl.
    destruct (dispatch_spec FromUI a m) as (_ & Hlog & Hcases).
    destruct Hcases as [(_ & Hsl & Hid & Hab & Hrq)
                       |[(_ & _ & _ & Hsl & Hid & Hab & Hrq)
                        |(_ & Hn & w' & p & k & Hw' & Hwk & Hsl & Hid & Hab & Hrq)]].
    + repeat split.
      * lia.
      * exists OnLogInStart. intros w t' Ht'. left. by rewrite <- Hsl.
      * right. exists FromUI, a. auto.
      * intros Ha w. rewrite Hsl. rewrite Hab in Ha. by apply wf_aborted.
      * by left.
    + repeat split.
      * lia.
      * exists OnLogInStart. intros w t' Ht'. by rewrite Hsl in Ht'.
      * right. exists FromUI, a. auto.
      * auto.
      * by left.
    + repeat split.
      * lia.
      * exists w'. intros w t' Ht'. rewrite Hsl in Ht'.
        destruct (decide (w = w')) as [->|Hne]; [|by left].
        right. simplify_eq. repeat split; try done.
        destruct (worker_program w' a Hn) as (p' & k' & Hwk' & Hprog).
        rewrite Hwk in Hwk'. simplify_eq. apply Hprog.
      * right. exists FromUI, a. auto.
      * congruence.
      * right. by exists (p_request p).
  - destruct (waiting id m) as [[w t]|] eqn:Hwait.
    2:{ simpl. rewrite Hwait. repeat split.
        - lia.
        - exists OnLogInStart. auto.
        - auto.
        - by apply wf_aborted.
        - by left. }
    apply waiting_Some in Hwait as [Ht <-].
    destruct (settle_spec m w t r Hwf Ht) as (a & _ & Hben & Habm & ->).
    destruct (dispatch_spec (FromTask (tid t)) a m) as (_ & Hlog & Hcases).
    simpl.
    assert (∀ m1, (if decide (w = w) then @None task else lastTask m1 w) = None)
      as Hgone by (intros; by rewrite decide_True).
    destruct Hcases as [(_ & Hsl & Hid & Hab & Hrq)
                       |[(_ & _ & _ & Hsl & Hid & Hab & Hrq)
                        |(_ & Hn & w' & p & k & Hw' & Hwk & Hsl & Hid & Hab & Hrq)]].
    + repeat split.
      * lia.
      * exists OnLogInStart. intros w0 t' Ht'. left.
        destruct (decide (w0 = w)); [done|]. by rewrite <- Hsl.
      * right. exists (FromTask (tid t)), a. split; [done|]. right.
        exists w, t. auto.
      * intros Ha. congruence.
      * by left.
    + repeat split.
      * lia.
      * exists OnLogInStart. intros w0 t' Ht'.
        destruct (decide (w0 = w)); [done|]. by rewrite Hsl in Ht'.
      * right. exists (FromTask (tid t)), a. split; [done|]. right.
        exists w, t. auto.
      * intros _ w0. destruct (decide (w0 = w)); [done|]. apply Hsl.
      * by left.
    + repeat split.
      * lia.
      * exists w'. intros w0 t' Ht'.
        destruct (decide (w0 = w)); [done|]. rewrite Hsl in Ht'.
        destruct (decide (w0 = w')) as [->|Hne]; [|by left].
        right. simplify_eq. repeat split; try done.
        destruct (worker_program w' a Hn) as (p' & k' & Hwk' & Hprog).
        rewrite Hwk in Hwk'. simplify_eq. apply Hprog.
      * right. exists (FromTask (tid t)), a. split; [done|]. right.
        exists w, t. auto.
      * congruence.
      * right. by exists (p_request p).
Qed.

Lemma put_by_fresh m id : wf m → next_id m ≤ id → put_by id m = [].
Proof.
  intros Hwf Hid. unfold put_by.
  assert (∀ i a, (FromTask i, a) ∈ dispatched m → i < next_id m) as Hlog
    by apply (wf_log m Hwf).
  induction (dispatched m) as [|[o a] l IH]; [done|].
  simpl. case_decide as Ho; simpl in Ho.
  - subst o. specialize (Hlog id a (list_elem_of_here _ _)). lia.
  - apply IH. intros i a' Hin. apply (Hlog i a'). by apply list_elem_of_further.
Qed.

Lemma step_wf m ev : wf m → wf (step m ev).
Proof.
  intros Hwf.
  destruct (step_spec m ev Hwf) as (Hid & (wn & Hsl) & Hlog & Hab & Hrq).
  split.
  - intros w t Ht. destruct (Hsl w t Ht) as [Hold|(_ & Hnew & Hn & _)].
    + pose proof (wf_fresh m Hwf w t Hold). lia.
    + lia.
  - intros w t Ht. destruct (Hsl w t Ht) as [Hold|(_ & _ & _ & Hp)]; [|done].
    by eapply wf_program.
  - intros w w' t t' Ht Ht' Heq.
    destruct (Hsl w t Ht) as [Hold|(-> & Hnew & _)];
      destruct (Hsl w' t' Ht') as [Hold'|(-> & Hnew' & _)]; try done.
    + by eapply (wf_distinct m Hwf).
    + pose proof (wf_fresh m Hwf w t Hold). lia.
    + pose proof (wf_fresh m Hwf w' t' Hold'). lia.
  - intros i a Hin.
    destruct Hlog as [Hlog|(o & a' & Hlog & Ho)]; rewrite Hlog in Hin.
    + pose proof (wf_log m Hwf i a Hin). lia.
    + apply elem_of_app in Hin as [Hin|Hin].
      * pose proof (wf_log m Hwf i a Hin). lia.
      * apply list_elem_of_singleton in Hin. simplify_eq.
        destruct Ho as [Ho|(w & t & Ho & Ht & _)]; [done|]. simplify_eq.
        pose proof (wf_fresh m Hwf w t Ht). lia.
  - intros i q Hin.
    destruct Hrq as [Hrq|(q' & Hrq & Hn)]; rewrite Hrq in Hin.
    + pose proof (wf_requests m Hwf i q Hin). lia.
    + apply elem_of_app in Hin as [Hin|Hin].
      * pose proof (wf_requests m Hwf i q Hin). lia.
      * apply list_elem_of_singleton in Hin. simplify_eq. lia.
  - done.
  - intros w t Ht. unfold put_by.
    assert (put_by (tid t) m = []) as Hm.
    { destruct (Hsl w t Ht) as [Hold|(_ & Hnew & _)].
      - by eapply wf_silent.
      - apply put_by_fresh; [done|lia]. }
    destruct Hlog as [Hlog|(o & a' & Hlog & Ho)]; rewrite Hlog; [done|].
    rewrite put_by_snoc. fold (put_by (tid t) m). rewrite Hm. simpl.
    case_decide as Heq; [|done]. subst o.
    destruct Ho as [Ho|(w0 & t0 & Ho & Ht0 & Hgone)]; [done|]. simplify_eq.
    destruct (Hsl w t Ht) as [Hold|(_ & Hnew & _)].
    + assert (w0 = w) as -> by (eapply (wf_distinct m Hwf); eauto).
      congruence.
    + pose proof (wf_fresh m Hwf w0 t0 Ht0). lia.
Qed.

Lemma init_wf : wf init.
Proof. split; try done; intros i a Hin; by apply elem_of_nil in Hin. Qed.

Lemma steps_wf m evs : wf m → wf (steps m evs).
Proof.
  revert m. induction evs as [|ev evs IH]; intros m Hwf; [done|].
  simpl. apply IH. by apply step_wf.
Qed.

Lemma reachable_wf m : reachable m → wf m.
Proof. intros [evs ->]. apply steps_wf, init_wf. Qed.

Lemma reachable_step m ev : reachable m → reachable (step m ev).
Proof.
  intros [evs ->]. exists (evs ++ [ev]). unfold steps. by rewrite foldl_app.
Qed.

Lemma reachable_steps m evs : reachable m → reachable (steps m evs).
Proof.
  intros [evs0 ->]. exists (evs0 ++ evs). unfold steps. by rewrite foldl_app.
Qed.

Lemma steps_app m evs evs' : steps m (evs ++ evs') = steps (steps m evs) evs'.
Proof. apply foldl_app. Qed.
End steps.

(** ** Tasks along a run *)

Section runs.
Implicit Types (a : gmap string val) (w : watcher) (m : middleware) (t : task).

(** A task that waits after a step and is older than the step waited
    before it. *)
Lemma old_task_step m ev w t :
  wf m → lastTask (step m ev) w = Some t → tid t < next_id m →
  lastTask m w = Some t.
Proof.
  intros Hwf Ht Hlt.
  destruct (step_spec m ev Hwf) as (_ & (wn & Hsl) & _).
  destruct (Hsl w t Ht) as [Hold|(_ & Hnew & _)]; [done|lia].
Qed.

Lemma next_id_steps m evs : wf m → next_id m ≤ next_id (steps m evs).
Proof.
  revert m. induction evs as [|ev evs IH]; intros m Hwf; [done|].
  simpl. destruct (step_spec m ev Hwf) as (Hle & _).
  pose proof (IH (step m ev) (step_wf m ev Hwf)). simpl in *. lia.
Qed.

Lemma old_task_steps m evs w t :
  wf m → lastTask (steps m evs) w = Some t → tid t < next_id m →
  lastTask m w = Some t.
Proof.
  revert m. induction evs as [|ev evs IH]; intros m Hwf Ht Hlt; [done|].
  simpl in Ht. apply (old_task_step m ev); [done| |done].
  apply IH; [by apply step_wf|done|].
  destruct (step_spec m ev Hwf) as (Hle & _). simpl in *. lia.
Qed.

(** A task that is no longer waiting never puts again. *)
Lemma gone_step m ev id :
  wf m → id < next_id m → (∀ w t, lastTask m w = Some t → tid t ≠ id) →
  (∀ w t, lastTask (step m ev) w = Some t → tid t ≠ id)
  ∧ put_by id (step m ev) = put_by id m.
Proof.
  intros Hwf Hlt Hgone.
  destruct (step_spec m ev Hwf) as (_ & (wn & Hsl) & Hlog & _).
  split.
  - intros w t Ht. destruct (Hsl w t Ht) as [Hold|(_ & Hnew & _)].
    + by eapply Hgone.
    + lia.
  - unfold put_by.
    destruct Hlog as [->|(o & a & -> & Ho)]; [done|].
    rewrite put_by_snoc. case_decide as Heq; [|by rewrite app_nil_r].
    subst o. destruct Ho as [Ho|(w & t & Ho & Ht & _)]; [done|].
    simplify_eq. by destruct (Hgone w t Ht).
Qed.

Lemma gone_steps m evs id :
  wf m → id < next_id m → (∀ w t, lastTask m w = Some t → tid t ≠ id) →
  put_by id (steps m evs) = put_by id m.
Proof.
  revert m. induction evs as [|ev evs IH]; intros m Hwf Hlt Hgone; [done|].
  simpl. destruct (gone_step m ev id Hwf Hlt Hgone) as [Hgone' Hput].
  rewrite <- Hput. apply IH; [by apply step_wf| |done].
  destruct (step_spec m ev Hwf) as (Hle & _). simpl in *. lia.
Qed.

(** A quiet event leaves the waiting invocation of the lane where it
    is. *)
Lemma quiet_step l m ev t :
  wf m → lastTask m (lane_watcher l) = Some t → quiet l (tid t) ev →
  lastTask (step m ev) (lane_watcher l) = Some t.
Proof.
  intros Hwf Ht Hq. destruct ev as [a|id r]; simpl in Hq.
  - destruct Hq as [Hne Hok]. simpl.
    destruct (dispatch_spec FromUI a m) as (_ & _ & Hcases).
    destruct Hcases as [(_ & Hsl & _)
                       |[(_ & (w' & Hw') & Hn & _)
                        |(_ & _ & w' & p & k & Hw' & _ & Hsl & _)]].
    + by rewrite Hsl.
    + destruct Hok; congruence.
    + rewrite Hsl. rewrite decide_False; [done|]. congruence.
  - destruct (waiting id m) as [[w' t']|] eqn:Hwait.
    2:{ simpl. by rewrite Hwait. }
    apply waiting_Some in Hwait as [Ht' <-].
    assert (lane_watcher l ≠ w') as Hw' by (intros <-; congruence).
    destruct (settle_spec m w' t' r Hwf Ht') as (a & _ & Hben & _ & ->).
    simpl. rewrite decide_False by done.
    destruct (dispatch_spec (FromTask (tid t')) a m) as (_ & _ & Hcases).
    destruct Hcases as [(_ & Hsl & _)
                       |[(_ & (w0 & Hw0) & Hn & _)
                        |(_ & _ & w0 & p & k & Hw0 & _ & Hsl & _)]].
    + by rewrite Hsl.
    + destruct Hben as [Hb|(_ & _ & Hb)]; congruence.
    + rewrite Hsl. rewrite decide_False; [done|].
      destruct Hben as [Hb|(_ & Hb & _)]; [congruence|].
      assert (w0 = OnRegisterSuccess) as -> by congruence.
      by destruct l.
Qed.

Lemma quiet_steps l m evs t :
  wf m → lastTask m (lane_watcher l) = Some t → Forall (quiet l (tid t)) evs →
  lastTask (steps m evs) (lane_watcher l) = Some t.
Proof.
  revert m. induction evs as [|ev evs IH]; intros m Hwf Ht Hq; [done|].
  apply Forall_cons in Hq as [Hq Hqs]. simpl.
  apply IH; [by apply step_wf| |done]. by apply quiet_step.
Qed.

(** A start action with credentials forks the invocation of its lane. *)
Lemma start_step l c m :
  aborted m = false → nullish c = false →
  let m1 := step m (Dispatch (start l c)) in
  ∃ t, lastTask m1 (lane_watcher l) = Some t
       ∧ tid t = next_id m
       ∧ awaited t = capability l c
       ∧ (∀ o, resumed t o = YieldPut (terminal l c o) Return)
       ∧ next_id m1 = S (next_id m)
       ∧ aborted m1 = false
       ∧ requests m1 = requests m ++ [(next_id m, p_request (capability l c))].
Proof.
  intros Hab Hn. simpl. unfold dispatch. simpl. rewrite Hab.
  rewrite taken_by_start. unfold takeLatest.
  pose proof (action_payload_start l c) as Hpay.
  destruct l; simpl lane_watcher; simpl start in *.
  - rewrite worker_logIn by (by rewrite Hpay).
    simpl. rewrite Hpay.
    eexists. repeat split; [by intros [v|e]|done].
  - rewrite worker_register by (by rewrite Hpay).
    simpl. rewrite Hpay.
    eexists. repeat split; [by intros [v|e]|done].
Qed.

(** When the request of a waiting task settles, the task puts its one
    action and is gone. *)
Lemma settle_put m w t r a :
  wf m → lastTask m w = Some t →
  resumed t (p_then (awaited t) r) = YieldPut a Return →
  let m' := step m (Settle (tid t) r) in
  put_by (tid t) m' = [a]
  ∧ state m' = authReducer (state m) a
  ∧ aborted m' = false
  ∧ tid t < next_id m'
  ∧ (∀ w' t', lastTask m' w' = Some t' → tid t' ≠ tid t).
Proof.
  intros Hwf Ht Hres m'.
  pose proof (step_wf m (Settle (tid t) r) Hwf) as Hwf'.
  destruct (step_spec m (Settle (tid t) r) Hwf) as (Hle & (wn & Hsl) & _).
  fold m' in Hwf', Hle, Hsl.
  destruct (settle_spec m w t r Hwf Ht) as (a' & Hres' & Hben & Hab & Heq).
  fold m' in Heq.
  assert (a' = a) as -> by congruence.
  destruct (dispatch_spec (FromTask (tid t)) a m) as (Hst & Hlog & Hcases).
  pose proof (wf_fresh m Hwf w t Ht) as Hfresh.
  repeat split.
  - unfold put_by. rewrite Heq. simpl. rewrite Hlog, put_by_snoc.
    fold (put_by (tid t) m). rewrite (wf_silent m Hwf w t Ht).
    by rewrite decide_True.
  - rewrite Heq. simpl. apply Hst.
  - rewrite Heq. simpl.
    destruct Hcases as [(_ & _ & _ & Hab' & _)
                       |[(_ & (w0 & Hw0) & Hn & _)
                        |(_ & _ & w0 & p & k & _ & _ & _ & _ & Hab' & _)]].
    + congruence.
    + destruct Hben as [Hb|(_ & _ & Hb)]; congruence.
    + done.
  - lia.
  - intros w' t' Ht' Hid.
    destruct (Hsl w' t' Ht') as [Hold|(_ & Hnew & _)]; [|lia].
    assert (w' = w) as -> by (eapply (wf_distinct m Hwf); eauto).
    rewrite Heq in Ht'. simpl in Ht'. by rewrite decide_True in Ht'.
Qed.
End runs.

(** ** The requests of a task *)

Section requests.
Implicit Types (a : gmap string val) (w : watcher) (m : middleware) (t : task).

Lemma requests_by_fresh m id : wf m → next_id m ≤ id → requests_by id m = [].
Proof.
  intros Hwf Hid. unfold requests_by.
  assert (∀ i q, (i, q) ∈ requests m → i < next_id m) as Hrq
    by apply (wf_requests m Hwf).
  induction (requests m) as [|[i q] l IH]; [done|].
  simpl. case_decide as Hi; simpl in Hi.
  - subst i. specialize (Hrq id q (list_elem_of_here _ _)). lia.
  - apply IH. intros i' q' Hin. apply (Hrq i' q'). by apply list_elem_of_further.
Qed.

Lemma requests_by_steps m evs id :
  wf m → id < next_id m → requests_by id (steps m evs) = requests_by id m.
Proof.
  revert m. induction evs as [|ev evs IH]; intros m Hwf Hlt; [done|].
  simpl. destruct (step_spec m ev Hwf) as (Hle & _ & _ & _ & Hrq).
  simpl in *. rewrite IH; [|by apply step_wf|lia].
  unfold requests_by. destruct Hrq as [->|(q & -> & _)]; [done|].
  rewrite omap_app. simpl. rewrite decide_False by lia. apply app_nil_r.
Qed.

(** The step in which an action that a watcher takes is dispatched
    forks that watcher's worker. *)
Lemma dispatches_forks m ev a w :
  wf m → aborted m = false → dispatches m ev a →
  taken_by a = Some w → nullish (action_payload a) = false →
  ∃ p k, worker w a = YieldPromise p k
         ∧ lastTask (step m ev) w
           = Some {| tid := next_id m; awaited := p; resumed := k |}
         ∧ requests (step m ev) = requests m ++ [(next_id m, p_request p)]
         ∧ next_id (step m ev) = S (next_id m).
Proof.
  intros Hwf Hab [from Hd] Hw Hn.
  assert (∀ from', ∃ p k, worker w a = YieldPromise p k
            ∧ (∀ w', lastTask (dispatch from' a m) w'
                     = if decide (w' = w)
                       then Some {| tid := next_id m; awaited := p; resumed := k |}
                       else lastTask m w')
            ∧ requests (dispatch from' a m) = requests m ++ [(next_id m, p_request p)]
            ∧ next_id (dispatch from' a m) = S (next_id m)) as Hfork.
  { intros from'.
    destruct (dispatch_spec from' a m) as (_ & _ & Hcases).
    destruct Hcases as [([?|?] & _)
                       |[(_ & _ & ? & _)
                        |(_ & _ & w' & p & k & Hw' & Hwk & Hsl & Hid & _ & Hrq)]];
      try congruence.
    assert (w' = w) as -> by congruence. by exists p, k. }
  destruct ev as [a'|id r].
  - simpl in *.
    destruct (dispatch_spec FromUI a' m) as (_ & Hlog & _).
    rewrite Hlog in Hd. apply app_inj_tail in Hd as [_ [= _ ->]].
    destruct (Hfork FromUI) as (p & k & Hwk & Hsl & Hrq & Hid).
    exists p, k. repeat split; try done.
    rewrite Hsl. by rewrite decide_True.
  - destruct (waiting id m) as [[w' t]|] eqn:Hwait.
    2:{ simpl in Hd. rewrite Hwait in Hd.
        apply (f_equal length) in Hd. rewrite length_app in Hd.
        simpl in Hd. lia. }
    apply waiting_Some in Hwait as [Ht <-].
    destruct (settle_spec m w' t r Hwf Ht) as (a' & _ & Hben & _ & Heq).
    rewrite Heq in Hd |- *. simpl in Hd |- *.
    destruct (dispatch_spec (FromTask (tid t)) a' m) as (_ & Hlog & _).
    rewrite Hlog in Hd. apply app_inj_tail in Hd as [_ [= _ ->]].
    destruct (Hfork (FromTask (tid t))) as (p & k & Hwk & Hsl & Hrq & Hid).
    exists p, k. repeat split; try done.
    destruct Hben as [Hb|(-> & Hb & _)]; [congruence|].
    assert (w = OnRegisterSuccess) as -> by congruence.
    rewrite decide_False by done. rewrite Hsl. by rewrite decide_True.
Qed.

Lemma capability_rejected l c e :
  p_then (capability l c) (Rejected e) = Rejected e.
Proof. by destruct l. Qed.
End requests.

(** ** The lanes *)


Lemma reachable_init : reachable init.
Proof. by exists []. Qed.


(** The login that follows a registration is a task of another watcher
    than the one LOG_IN_START drives: a LOG_IN_START leaves it running, and
    both logins then end in an action. *)
Example autologin_outlives_logInStart :
  let c := VObj (<["password" := VStr "y"]> {[ "email" := VStr "c@d.com" ]}) in
  let response := VObj {[ "data" := VObj {[ "accessToken" := VStr "t1" ]} ]} in
  let m := steps init [Dispatch (registerSuccess c); Dispatch (logInStart c);
                       Settle 0 (Rejected (VStr "late")); Settle 1 (Resolved response)] in
  put_by 0 m = [logInFailure (VStr "late")]
  ∧ put_by 1 m = [logInSuccess (VObj {[ "token" := VStr "t1" ]})]
  ∧ error (state m) = VNull.
Proof. vm_compute. repeat split. Qed.


(** C3.  In any reachable state with its sagas alive, let a start action
    with credentials be dispatched and its invocation be left alone until
    its request settles.  Then that step ends no saga, and the one action
    the invocation ever puts is the terminal action for the way the call
    ended; when the call ended in an error, whether the request was
    rejected or the function threw, that is the failure action of the lane
    with the error as payload, and the error is then the [error] of the
    state. *)
Theorem capability_failure_is_caught (l : lane) (m0 : middleware) (c : val)
    (evs : list event) (r : outcome) :
  reachable m0 →
  aborted m0 = false →
  nullish c = false →
  let n := next_id m0 in
  Forall (quiet l n) evs →
  let m2 := steps (step m0 (Dispatch (start l c))) evs in
  let m3 := step m2 (Settle n r) in
  (∀ e, r = Rejected e → p_then (capability l c) r = Rejected e)
  ∧ running (lane_watcher l) n m2 = true
  ∧ put_by n m2 = []
  ∧ aborted m3 = false
  ∧ put_by n m3 = [terminal l c (p_then (capability l c) r)]
  ∧ (∀ e, p_then (capability l c) r = Rejected e →
       put_by n m3 = [failure l e] ∧ error (state m3) = e)
  ∧ (∀ evs', put_by n (steps m3 evs') = put_by n m3).
Proof.
  intros Hreach Hab Hc n Hq m2 m3.
  pose proof (reachable_wf m0 Hreach) as Hwf0.
  destruct (start_step l c m0 Hab Hc) as (t & Ht & Hid & Haw & Hres & _).
  fold n in Hid.
  set (m1 := step m0 (Dispatch (start l c))) in *.
  assert (wf m1) as Hwf1 by (by apply step_wf).
  assert (wf m2) as Hwf2 by (by apply steps_wf).
  assert (lastTask m2 (lane_watcher l) = Some t) as Ht2.
  { apply quiet_steps; [done..|]. by rewrite Hid. }
  destruct (settle_put m2 (lane_watcher l) t r
              (terminal l c (p_then (capability l c) r)) Hwf2 Ht2)
    as (Hput & Hst & Hab3 & Hlt & Hgone).
  { by rewrite Hres, Haw. }
  rewrite Hid in Hput, Hlt, Hgone, Hab3, Hst. fold m3 in Hput, Hlt, Hgone, Hab3, Hst.
  split; [intros e ->; apply capability_rejected|].
  split; [apply running_lastTask; by exists t|].
  split; [rewrite <- Hid; by apply (wf_silent m2 Hwf2 (lane_watcher l))|].
  split; [done|]. split; [done|]. split.
  - intros e He. rewrite He in Hput, Hst. simpl in Hput, Hst.
    split; [done|]. rewrite Hst, error_authReducer.
    destruct l; simpl.
    + rewrite decide_False by done. rewrite decide_True by (by left).
      apply action_payload_mk.
    + rewrite decide_False by done. rewrite decide_True by (by right).
      apply action_payload_mk.
  - intros evs'. apply gone_steps; [by apply step_wf|done..].
Qed.

Lemma capability_failure_is_caught_witness :
  let c := VObj {[ "email" := VStr "a@b.com" ]} in
  let m3 := steps init [Dispatch (registerStart c); Dispatch (logInStart c);
                        Settle 0 (Rejected (VStr "duplicate email"))] in
  aborted m3 = false ∧ put_by 0 m3 = [registerFailure (VStr "duplicate email")].
Proof.
  intros c m3.
  destruct (capability_failure_is_caught Register init c [Dispatch (logInStart c)]
              (Rejected (VStr "duplicate email")))
    as (_ & _ & _ & Hab & Hput & _).
  - exact reachable_init.
  - reflexivity.
  - reflexivity.
  - constructor; [|constructor]. split; [discriminate | by right].
  - split; [exact Hab | exact Hput].
Defined.

(** ** Logging in after a registration *)

(** C4.  In any reachable state with its sagas alive, the step in which
    REGISTER_SUCCESS is dispatched with credentials [c], by the register
    saga or by anyone else, makes one request: the one [logIn] makes for the
    email and the password of [c], by a new task that goes on as
    [logInWithCredentials] does for a LOG_IN_START with [c], and that task
    never makes another.  If the task is still running when the request
    settles and [logIn] resolves to a user, the one action it puts is
    LOG_IN_SUCCESS with that user, which is then [currentUser]. *)
Theorem register_success_logs_in (m : middleware) (ev : event) (c : val) :
  reachable m →
  aborted m = false →
  nullish c = false →
  dispatches m ev (registerSuccess c) →
  let m1 := step m ev in
  let n := next_id m in
  let p := logIn (field c "email") (field c "password") in
  requests m1 = requests m ++ [(n, p_request p)]
  ∧ (∀ evs, requests_by n (steps m1 evs) = [p_request p])
  ∧ (∃ t, lastTask m1 OnRegisterSuccess = Some t ∧ tid t = n ∧ awaited t = p
          ∧ ∀ o, resumed t o = logIn_settled o)
  ∧ logInWithCredentials (logInStart c) = YieldPromise p logIn_settled
  ∧ (∀ evs r user,
       running OnRegisterSuccess n (steps m1 evs) = true →
       p_then p r = Resolved user →
       let m3 := step (steps m1 evs) (Settle n r) in
       put_by n m3 = [logInSuccess user] ∧ currentUser (state m3) = user).
Proof.
  intros Hreach Hab Hc Hd m1 n p.
  pose proof (reachable_wf m Hreach) as Hwf.
  assert (wf m1) as Hwf1 by (by apply step_wf).
  assert (action_payload (registerSuccess c) = c) as Hpay
    by apply action_payload_mk.
  destruct (dispatches_forks m ev (registerSuccess c) OnRegisterSuccess Hwf Hab Hd)
    as (p0 & k0 & Hwk & Hsl & Hrq & Hid); [done|by rewrite Hpay|].
  rewrite worker_afterRegister in Hwk by (by rewrite Hpay).
  rewrite Hpay in Hwk. injection Hwk as <- <-.
  fold m1 in Hsl, Hrq, Hid. fold n in Hsl, Hrq, Hid.
  split; [done|]. split.
  { intros evs. rewrite requests_by_steps; [|done|lia].
    unfold requests_by. rewrite Hrq, omap_app. simpl.
    rewrite decide_True by done.
    fold (requests_by n m). by rewrite requests_by_fresh. }
  split.
  { eexists. split; [exact Hsl|]. repeat split. intros o. simpl.
    apply seq_logIn_settled. }
  split.
  { change (logInWithCredentials (logInStart c))
      with (worker OnLogInStart (logInStart c)).
    rewrite worker_logIn by (by unfold logInStart; rewrite action_payload_mk).
    unfold logInStart. by rewrite action_payload_mk. }
  intros evs r user Hrun Hres m3.
  apply running_lastTask in Hrun as (t2 & Ht2 & Hid2).
  assert (lastTask m1 OnRegisterSuccess = Some t2) as Ht1.
  { apply (old_task_steps m1 evs); [done..|]. lia. }
  rewrite Hsl in Ht1. injection Ht1 as <-.
  assert (wf (steps m1 evs)) as Hwf2 by (by apply steps_wf).
  destruct (settle_put (steps m1 evs) OnRegisterSuccess _ r (logInSuccess user)
              Hwf2 Ht2) as (Hput & Hst & _).
  { cbn [resumed awaited]. fold p. by rewrite Hres. }
  simpl tid in Hput, Hst. fold n in Hput, Hst. fold m3 in Hput, Hst.
  split; [done|].
  rewrite Hst, currentUser_authReducer. rewrite decide_True by done.
  apply action_payload_mk.
Qed.

Lemma register_success_logs_in_witness :
  let m := step init (Dispatch (registerStart failing_credentials)) in
  let m1 := step m (Settle 0 (Resolved VUndefined)) in
  requests m1
  = requests m
    ++ [(1, p_request (logIn (VStr "c@d.com") (VStr "y")))].
Proof.
  intros m m1.
  destruct (register_success_logs_in m (Settle 0 (Resolved VUndefined))
              failing_credentials) as (Hrq & _).
  - exists [Dispatch (registerStart failing_credentials)]. reflexivity.
  - reflexivity.
  - reflexivity.
  - exists (FromTask 0). vm_compute. reflexivity.
  - exact Hrq.
Defined.

(** ** A registration that fails *)

(** C7, as the claim has it, fails: after the failed registration the
    state has no [registerSuccess]; it reads as [undefined], not [false]. *)
Lemma failed_registration_flag_not_false :
  ¬ (error (state failed_registration) = VStr "duplicate email"
     ∧ registerSuccess_flag (state failed_registration) = VBool false).
Proof. intros [_ H]. vm_compute in H. discriminate. Qed.

(** C7 (amended).  Dispatching REGISTER_START with the credentials
    [{email: "c@d.com", password: "y", firstName: "A", lastName: "B"}] from
    the initial state makes one request, to [/register] with these
    credentials; when it is rejected with ["duplicate email"], the register
    saga puts REGISTER_FAILURE with that error, and the final state is
    [{currentUser: null, error: "duplicate email"}]: [error] is the error
    and [registerSuccess] is absent. *)
Theorem failed_registration_state :
  requests failed_registration
  = [(0, {| url := "/register"; body := failing_credentials |})]
  ∧ dispatched failed_registration
    = [(FromUI, registerStart failing_credentials);
       (FromTask 0, registerFailure (VStr "duplicate email"))]
  ∧ state failed_registration
    = VObj (<["error" := VStr "duplicate email"]> {[ "currentUser" := VNull ]})
  ∧ error (state failed_registration) = VStr "duplicate email"
  ∧ registerSuccess_flag (state failed_registration) = VUndefined
  ∧ aborted failed_registration = false.
Proof. vm_compute. repeat split. Qed.

(** * Further properties *)

(** ** The reducer as an algebra of actions *)

(** Two objects built by property assignments are equal when they read
    the same at every name. *)
Ltac same_object :=
  simpl; f_equal; apply map_eq; intros ?;
  rewrite ?lookup_insert; repeat (destruct (decide _); simplify_eq; try done).

Section reducer_algebra.
Implicit Types (s c e : val) (a : gmap string val) (o : gmap string val).

Lemma authReducer_obj o a :
  authReducer (VObj o) a =
    match action_type a with
    | Some t =>
        if decide (t = LOG_IN_SUCCESS) then
          VObj (<["error" := VNull]> (<["currentUser" := action_payload a]> o))
        else if decide (t = LOG_IN_FAILURE ∨ t = REGISTER_FAILURE) then
          VObj (<["error" := action_payload a]> o)
        else if decide (t = LOG_OUT) then INITIAL_STATE
        else if decide (t = REGISTER_SUCCESS) then
          VObj (<["registerSuccess" := VBool true]> o)
        else VObj o
    | None => VObj o
    end.
Proof. done. Qed.

End reducer_algebra.

(** X1.  Dispatching the same action twice in a row changes nothing the
    second time. *)
Theorem authReducer_idempotent (s : val) (a : gmap string val) :
  authReducer (authReducer s a) a = authReducer s a.
Proof.
  unfold authReducer.
  destruct (action_type a) as [t|]; [|apply or_initial_idemp].
  destruct (decide (t = LOG_IN_SUCCESS)).
  { same_object. }
  destruct (decide (t = LOG_IN_FAILURE ∨ t = REGISTER_FAILURE)).
  { same_object. }
  destruct (decide (t = LOG_OUT)); [done|].
  destruct (decide (t = REGISTER_SUCCESS)).
  { same_object. }
  apply or_initial_idemp.
Qed.

(** X2.  Errors do not pile up: of two failure actions in a row, of
    either lane, only the second leaves a trace in the state. *)
Theorem failure_overwrites (s : val) (a1 a2 : gmap string val) :
  action_type a1 = Some LOG_IN_FAILURE ∨ action_type a1 = Some REGISTER_FAILURE →
  action_type a2 = Some LOG_IN_FAILURE ∨ action_type a2 = Some REGISTER_FAILURE →
  authReducer (authReducer s a1) a2 = authReducer s a2.
Proof.
  intros H1 H2.
  assert (∀ s' a, action_type a = Some LOG_IN_FAILURE
                  ∨ action_type a = Some REGISTER_FAILURE →
                  authReducer s' a
                  = VObj (<["error" := action_payload a]> (own_props (or_initial s'))))
    as Hf.
  { intros s' a Ha. unfold authReducer.
    destruct Ha as [-> | ->]; rewrite decide_False by done;
      rewrite decide_True; auto. }
  rewrite (Hf _ a2 H2), (Hf s a1 H1), (Hf s a2 H2). same_object.
Qed.

Lemma failure_overwrites_witness :
  authReducer (authReducer INITIAL_STATE (logInFailure (VStr "first")))
              (registerFailure (VStr "second"))
  = authReducer INITIAL_STATE (registerFailure (VStr "second")).
Proof.
  apply (failure_overwrites INITIAL_STATE (logInFailure (VStr "first"))
           (registerFailure (VStr "second"))).
  - left. reflexivity.
  - right. reflexivity.
Defined.

(** X3.  From the first action the store dispatches, with no state yet,
    and whatever is dispatched afterwards, the state is an object with the
    fields [currentUser] and [error] and at most one more, [registerSuccess],
    which is [true] when it is there: it is never [false]. *)
Theorem reducer_state_shape (a0 : gmap string val) (actions : list (gmap string val)) :
  ∃ o, reduce_all VUndefined (a0 :: actions) = VObj o
       ∧ (dom o = {[ "currentUser"; "error" ]} ∧ o !! "registerSuccess" = None
          ∨ dom o = {[ "currentUser"; "error"; "registerSuccess" ]}
            ∧ o !! "registerSuccess" = Some (VBool true)).
Proof.
  set (shape := λ o : gmap string val,
         dom o = ({[ "currentUser"; "error" ]} : gset string)
         ∧ o !! "registerSuccess" = None
         ∨ dom o = ({[ "currentUser"; "error"; "registerSuccess" ]} : gset string)
           ∧ o !! "registerSuccess" = Some (VBool true)).
  assert (shape INITIAL_STATE_obj) as Hinit.
  { left. split; [|done].
    unfold INITIAL_STATE_obj. rewrite dom_insert_L, dom_singleton_L. set_solver. }
  assert (∀ o a, shape o → ∃ o', authReducer (VObj o) a = VObj o' ∧ shape o')
    as Hstep.
  { intros o a Ho. rewrite authReducer_obj.
    destruct (action_type a) as [t|]; [|by eexists].
    destruct (decide (t = LOG_IN_SUCCESS)).
    { eexists. split; [done|]. unfold shape.
      rewrite !dom_insert_L, !lookup_insert_ne by done.
      destruct Ho as [[-> ->]|[-> ->]]; [left|right]; split; try done; set_solver. }
    destruct (decide (t = LOG_IN_FAILURE ∨ t = REGISTER_FAILURE)).
    { eexists. split; [done|]. unfold shape.
      rewrite !dom_insert_L, !lookup_insert_ne by done.
      destruct Ho as [[-> ->]|[-> ->]]; [left|right]; split; try done; set_solver. }
    destruct (decide (t = LOG_OUT)); [by eexists|].
    destruct (decide (t = REGISTER_SUCCESS)); [|by eexists].
    eexists. split; [done|]. right.
    rewrite !dom_insert_L, lookup_insert_eq.
    destruct Ho as [[-> _]|[-> _]]; split; try done; set_solver. }
  assert (∀ acts o, shape o → ∃ o', reduce_all (VObj o) acts = VObj o' ∧ shape o')
    as Hall.
  { induction acts as [|a acts IH]; intros o Ho; [by eexists|].
    simpl. destruct (Hstep o a Ho) as (o' & -> & Ho'). by apply IH. }
  simpl. change (authReducer VUndefined a0) with (authReducer INITIAL_STATE a0).
  destruct (Hstep _ a0 Hinit) as (o' & Heq & Ho').
  unfold INITIAL_STATE. rewrite Heq. by apply Hall.
Qed.

(** X4.  REGISTER_SUCCESS commutes with every action but LOG_OUT: in
    whichever order the two reach the reducer, the state is the same. *)
Theorem registerSuccess_commutes (s c : val) (a : gmap string val) :
  action_type a ≠ Some LOG_OUT →
  authReducer (authReducer s a) (registerSuccess c)
  = authReducer (authReducer s (registerSuccess c)) a.
Proof.
  intros Hout.
  rewrite !authReducer_registerSuccess. rewrite authReducer_obj.
  rewrite or_initial_authReducer. unfold authReducer.
  destruct (action_type a) as [t|]; [|done].
  destruct (decide (t = LOG_IN_SUCCESS)).
  { same_object. }
  destruct (decide (t = LOG_IN_FAILURE ∨ t = REGISTER_FAILURE)).
  { same_object. }
  destruct (decide (t = LOG_OUT)); [congruence|].
  destruct (decide (t = REGISTER_SUCCESS)).
  { same_object. }
  done.
Qed.

Lemma registerSuccess_commutes_witness :
  authReducer (authReducer INITIAL_STATE (logInSuccess (VStr "u")))
              (registerSuccess VNull)
  = authReducer (authReducer INITIAL_STATE (registerSuccess VNull))
                (logInSuccess (VStr "u")).
Proof.
  apply (registerSuccess_commutes INITIAL_STATE VNull (logInSuccess (VStr "u"))).
  discriminate.
Defined.

(** ** What [logIn] makes of the response *)



(** X6.  [logIn] fails in two ways only: the request is rejected, and
    the error is the one of the request; or the request resolves to
    [null], [undefined] or a response without [data], and the error is the
    TypeError of reading it. *)
Theorem logIn_rejected (email password e : val) (r : outcome) :
  p_then (logIn email password) r = Rejected e
  ↔ r = Rejected e
    ∨ ∃ response, r = Resolved response ∧ e = TypeError
        ∧ (nullish response = true ∨ nullish (field response "data") = true).
Proof.
  split.
  - destruct r as [response|e']; simpl; [|intros [= ->]; by left].
    unfold read. intros H. right. exists response.
    destruct (nullish response) eqn:Hr; [injection H as <-; auto|].
    destruct (nullish (field response "data")) eqn:Hd; [injection H as <-; auto|].
    done.
  - intros [->|(response & -> & -> & Hn)]; [done|].
    simpl. unfold read.
    destruct (nullish response) eqn:Hr; [done|].
    destruct Hn as [Hn|Hn]; [done|]. by rewrite Hn.
Qed.

(** ** Every step of the running application *)

Section step_cases.
Implicit Types (a : gmap string val) (w : watcher) (m : middleware) (t : task).

(** A step does nothing, for a request nobody waits for, or it dispatches
    one action: from the user interface, or put by the task whose request
    settled.  The action is reduced, and then it forks a worker, or ends
    the sagas (only an action from the user interface can), or is taken by
    no watcher. *)
Lemma step_cases m ev :
  wf m →
  let m' := step m ev in
  (m' = m ∧ ∃ id r, ev = Settle id r ∧ waiting id m = None)
  ∨ ∃ from a,
      dispatched m' = dispatched m ++ [(from, a)]
      ∧ state m' = authReducer (state m) a
      ∧ (from = FromUI ∧ ev = Dispatch a
         ∨ ∃ w t r, ev = Settle (tid t) r ∧ from = FromTask (tid t)
             ∧ lastTask m w = Some t
             ∧ resumed t (p_then (awaited t) r) = YieldPut a Return
             ∧ benign w a ∧ aborted m = false)
      ∧ (requests m' = requests m ∧ next_id m' = next_id m
         ∧ (aborted m' = aborted m
            ∨ from = FromUI ∧ (∃ w, taken_by a = Some w)
              ∧ nullish (action_payload a) = true
              ∧ aborted m = false ∧ aborted m' = true)
         ∨ aborted m = false ∧ aborted m' = false
           ∧ nullish (action_payload a) = false
           ∧ ∃ w p k, taken_by a = Some w ∧ worker w a = YieldPromise p k
               ∧ lastTask m' w
                 = Some {| tid := next_id m; awaited := p; resumed := k |}
               ∧ requests m' = requests m ++ [(next_id m, p_request p)]
               ∧ next_id m' = S (next_id m)).
Proof.
  intros Hwf m'. subst m'. destruct ev as [a|id r].
  - right. exists FromUI, a. simpl.
    destruct (dispatch_spec FromUI a m) as (Hst & Hlog & Hcases).
    split; [done|]. split; [done|]. split; [by left|].
    destruct Hcases as [(_ & Hsl & Hid & Hab & Hrq)
                       |[(Habm & Hw & Hn & Hsl & Hid & Hab & Hrq)
                        |(Habm & Hn & w' & p & k & Hw' & Hwk & Hsl & Hid & Hab & Hrq)]].
    + left. auto.
    + left. repeat split; try done. right. auto.
    + right. repeat split; try done. exists w', p, k. repeat split; try done.
      rewrite Hsl. by rewrite decide_True.
  - destruct (waiting id m) as [[w t]|] eqn:Hwait.
    2:{ left. simpl. rewrite Hwait. eauto. }
    right. apply waiting_Some in Hwait as [Ht <-].
    destruct (settle_spec m w t r Hwf Ht) as (a & Hres & Hben & Habm & ->).
    exists (FromTask (tid t)), a. simpl.
    destruct (dispatch_spec (FromTask (tid t)) a m) as (Hst & Hlog & Hcases).
    split; [done|]. split; [done|].
    split; [right; exists w, t, r; by repeat split|].
    destruct Hcases as [(_ & Hsl & Hid & Hab & Hrq)
                       |[(_ & (w0 & Hw0) & Hn & _)
                        |(_ & Hn & w' & p & k & Hw' & Hwk & Hsl & Hid & Hab & Hrq)]].
    + left. auto.
    + destruct Hben as [Hb|(_ & _ & Hb)]; congruence.
    + right. repeat split; try done. exists w', p, k. repeat split; try done.
      destruct Hben as [Hb|(-> & Hb & _)]; [congruence|].
      assert (w' = OnRegisterSuccess) as -> by congruence.
      rewrite decide_False by done. rewrite Hsl. by rewrite decide_True.
Qed.

(** To prove something of every reachable state. *)
Lemma reachable_ind (P : middleware → Prop) :
  P init →
  (∀ m ev, reachable m → P m → P (step m ev)) →
  ∀ m, reachable m → P m.
Proof.
  intros Hinit Hstep m [evs ->].
  induction evs as [|ev evs IH] using rev_ind; [done|].
  unfold steps in *. rewrite foldl_app. simpl.
  apply Hstep; [by exists evs|done].
Qed.

Lemma waiting_gone id m :
  (∀ w t, lastTask m w = Some t → tid t ≠ id) → waiting id m = None.
Proof.
  intros Hgone. destruct (waiting id m) as [[w t]|] eqn:Hw; [|done].
  apply waiting_Some in Hw as [Ht Hid]. by destruct (Hgone w t Ht).
Qed.

(** The action a worker puts when it is resumed. *)
Lemma worker_puts w a0 p k o a s :
  worker w a0 = YieldPromise p k → k o = YieldPut a s → is_terminal a.
Proof.
  intros Hwk Hk.
  destruct (nullish (action_payload a0)) eqn:Hn.
  { by rewrite worker_nullish in Hwk. }
  destruct w.
  - rewrite worker_logIn in Hwk by done. injection Hwk as <- <-.
    destruct o; simpl in Hk; injection Hk as <- <-; [by left|by right; left].
  - rewrite worker_register in Hwk by done. injection Hwk as <- <-.
    destruct o; simpl in Hk; injection Hk as <- <-;
      [by right; right; left|by right; right; right].
  - rewrite worker_afterRegister in Hwk by done. injection Hwk as <- <-.
    rewrite seq_logIn_settled in Hk.
    destruct o; simpl in Hk; injection Hk as <- <-; [by left|by right; left].
Qed.

Lemma reachable_from_worker m : reachable m → from_worker m.
Proof.
  revert m. apply reachable_ind; [by intros w t Ht|].
  intros m ev Hreach IH w t' Ht'.
  pose proof (reachable_wf m Hreach) as Hwf.
  pose proof (step_wf m ev Hwf) as Hwf'.
  destruct (step_spec m ev Hwf) as (_ & (wn & Hsl) & _).
  destruct (Hsl w t' Ht') as [Hold|(-> & Hid & Hnext & _)]; [by apply IH|].
  destruct (step_cases m ev Hwf) as [[Heq _]|(from & a & _ & _ & _ & Hfork)].
  { rewrite Heq in Hnext. lia. }
  destruct Hfork as [(_ & Hsame & _)
                    |(_ & _ & Hn & w1 & p & k & _ & Hwk & Hnew & _)]; [lia|].
  assert (w1 = wn) as ->.
  { eapply (wf_distinct _ Hwf'); eauto. }
  rewrite Hnew in Ht'. injection Ht' as <-. by exists a.
Qed.
End step_cases.



Lemma count_by_id (l : list (nat * request)) (n id : nat) :
  l.*1 = List.seq 0 n →
  length (omap (λ q : nat * request,
                  if decide (q.1 = id) then Some q.2 else None) l)
  = if decide (id < n) then 1 else 0.
Proof.
  revert n. induction l as [|[i q] l IH] using rev_ind; intros n Hl.
  - destruct n; [|done]. destruct (decide (id < 0)); [lia|done].
  - rewrite fmap_app in Hl. simpl in Hl.
    destruct n as [|n].
    { apply (f_equal length) in Hl. rewrite length_app in Hl. simpl in Hl. lia. }
    rewrite seq_S in Hl. simpl in Hl. apply app_inj_tail in Hl as [Hl ->].
    rewrite omap_app, length_app, (IH n Hl). simpl.
    repeat case_decide; simpl; lia.
Qed.

(** X8.  Every task makes exactly one request, when it is forked: the
    requests made so far are those of the tasks 0, 1, ... in this order, one
    for each task there has been. *)
Theorem one_request_per_task (m : middleware) :
  reachable m →
  (requests m).*1 = List.seq 0 (next_id m)
  ∧ ∀ id, length (requests_by id m) = if decide (id < next_id m) then 1 else 0.
Proof.
  intros Hreach.
  assert ((requests m).*1 = List.seq 0 (next_id m)) as H;
    [|split; [done|]; intros id; by apply count_by_id].
  revert m Hreach. apply reachable_ind; [done|].
  intros m ev Hreach IH.
  destruct (step_cases m ev (reachable_wf m Hreach))
    as [[-> _]|(from & a & _ & _ & _ & Hfork)]; [done|].
  destruct Hfork as [(-> & -> & _)|(_ & _ & _ & w & p & k & _ & _ & _ & -> & ->)];
    [done|].
  rewrite fmap_app, seq_S. simpl. by rewrite IH.
Qed.

Lemma one_request_per_task_witness :
  (requests failed_registration).*1 = List.seq 0 (next_id failed_registration)
  ∧ ∀ id, length (requests_by id failed_registration)
          = if decide (id < next_id failed_registration) then 1 else 0.
Proof.
  apply (one_request_per_task failed_registration).
  exists [Dispatch (registerStart failing_credentials);
          Settle 0 (Rejected (VStr "duplicate email"))].
  reflexivity.
Defined.

(** X9.  No task ever puts more than one action. *)
Theorem at_most_one_put (m : middleware) (id : nat) :
  reachable m →
  length (put_by id m) ≤ 1.
Proof.
  intros Hreach. revert m Hreach id.
  apply (reachable_ind (λ m, ∀ id, length (put_by id m) ≤ 1)); [simpl; lia|].
  intros m ev Hreach IH id.
  pose proof (reachable_wf m Hreach) as Hwf.
  destruct (step_cases m ev Hwf)
    as [[-> _]|(from & a & Hlog & _ & Hfrom & _)]; [done|].
  unfold put_by. rewrite Hlog, put_by_snoc. fold (put_by id m).
  case_decide as Heq; [|rewrite app_nil_r; apply IH].
  destruct Hfrom as [[-> _]|(w & t & r & _ & -> & Ht & _)]; [done|].
  injection Heq as <-. by rewrite (wf_silent m Hwf w t Ht).
Qed.

Lemma at_most_one_put_witness : length (put_by 0 failed_registration) ≤ 1.
Proof.
  apply (at_most_one_put failed_registration 0).
  exists [Dispatch (registerStart failing_credentials);
          Settle 0 (Rejected (VStr "duplicate email"))].
  reflexivity.
Defined.

(** X10.  Whatever a saga puts is one of the four terminal actions: no
    saga dispatches a start action or LOG_OUT. *)
Theorem sagas_put_terminal_actions (m : middleware) (id : nat)
    (a : gmap string val) :
  reachable m →
  (FromTask id, a) ∈ dispatched m →
  is_terminal a.
Proof.
  intros Hreach. revert m Hreach id a.
  apply (reachable_ind
           (λ m, ∀ id a, (FromTask id, a) ∈ dispatched m → is_terminal a)).
  { intros id a Hin. by apply elem_of_nil in Hin. }
  intros m ev Hreach IH id a Hin.
  pose proof (reachable_wf m Hreach) as Hwf.
  destruct (step_cases m ev Hwf)
    as [[Heq _]|(from & a' & Hlog & _ & Hfrom & _)].
  { rewrite Heq in Hin. by eapply IH. }
  rewrite Hlog in Hin. apply elem_of_app in Hin as [Hin|Hin]; [by eapply IH|].
  apply list_elem_of_singleton in Hin. injection Hin as <- <-.
  destruct Hfrom as [[? _]|(w & t & r & _ & _ & Ht & Hres & _)]; [done|].
  destruct (reachable_from_worker m Hreach w t Ht) as (a0 & _ & Hwk).
  by eapply worker_puts.
Qed.

Lemma sagas_put_terminal_actions_witness :
  is_terminal (registerFailure (VStr "duplicate email")).
Proof.
  apply (sagas_put_terminal_actions failed_registration 0).
  - exists [Dispatch (registerStart failing_credentials);
            Settle 0 (Rejected (VStr "duplicate email"))].
    reflexivity.
  - vm_compute. apply list_elem_of_further, list_elem_of_here.
Defined.

(** ** Ending the sagas, and late results *)

Section aborting.
Implicit Types (a : gmap string val) (w : watcher) (m : middleware) (t : task).

(** Once the sagas have ended, a dispatch is only reduced and a settled
    request goes unnoticed. *)
Lemma aborted_step m ev :
  wf m → aborted m = true →
  step m ev = match ev with
              | Dispatch a => reduce FromUI a m
              | Settle _ _ => m
              end.
Proof.
  intros Hwf Hab. destruct ev as [a|id r]; simpl.
  - unfold dispatch. simpl. by rewrite Hab.
  - rewrite waiting_gone; [done|].
    intros w t Ht. by rewrite (wf_aborted m Hwf Hab) in Ht.
Qed.

(** The actions the user interface dispatches in a run. *)
Lemma put_by_reduce id a m : put_by id (reduce FromUI a m) = put_by id m.
Proof.
  unfold put_by. simpl. rewrite put_by_snoc.
  rewrite decide_False by done. apply app_nil_r.
Qed.
End aborting.

(** X11.  However a request settles, the sagas stay alive if they were:
    only a dispatch can end them. *)
Theorem settle_never_aborts (m : middleware) (id : nat) (r : outcome) :
  reachable m →
  aborted (step m (Settle id r)) = aborted m.
Proof.
  intros Hreach.
  destruct (step_cases m (Settle id r) (reachable_wf m Hreach))
    as [[-> _]|(from & a & _ & _ & Hfrom & Hfork)]; [done|].
  destruct Hfrom as [[_ ?]|(w & t & r' & _ & -> & _ & _ & _ & Hab)]; [done|].
  destruct Hfork as [(_ & _ & [?|(? & _)])|(_ & ? & _)]; [done|done|congruence].
Qed.

Lemma settle_never_aborts_witness :
  aborted failed_registration
  = aborted (step init (Dispatch (registerStart failing_credentials))).
Proof.
  apply (settle_never_aborts
           (step init (Dispatch (registerStart failing_credentials))) 0
           (Rejected (VStr "duplicate email"))).
  exists [Dispatch (registerStart failing_credentials)]. reflexivity.
Defined.

(** X12.  An action that a watcher takes but that carries no payload ends
    the sagas for good: the parameter of the worker is destructured outside
    its [try].  From then on no request is made and no saga puts anything,
    whatever is dispatched and whatever settles; the reducer alone goes on,
    over the actions the user interface dispatches. *)
Theorem missing_payload_ends_sagas (m : middleware) (a : gmap string val)
    (w : watcher) (evs : list event) :
  reachable m →
  aborted m = false →
  taken_by a = Some w →
  nullish (action_payload a) = true →
  let m1 := step m (Dispatch a) in
  let m2 := steps m1 evs in
  aborted m1 = true
  ∧ aborted m2 = true
  ∧ (∀ w', lastTask m2 w' = None)
  ∧ requests m2 = requests m
  ∧ (∀ id, put_by id m2 = put_by id m)
  ∧ state m2
    = reduce_all (state m)
        (a :: omap (λ ev, match ev with
                          | Dispatch a' => Some a'
                          | Settle _ _ => None
                          end) evs).
Proof.
  intros Hreach Hab Hw Hn m1 m2.
  pose proof (reachable_wf m Hreach) as Hwf.
  assert (wf m1) as Hwf1 by (by apply step_wf).
  assert (aborted m1 = true ∧ requests m1 = requests m
          ∧ (∀ id, put_by id m1 = put_by id m)
          ∧ state m1 = authReducer (state m) a) as (Hab1 & Hrq1 & Hput1 & Hst1).
  { destruct (dispatch_spec FromUI a m) as (Hst & Hlog & Hcases).
    fold (step m (Dispatch a)) in Hst, Hlog, Hcases. fold m1 in Hst, Hlog, Hcases.
    destruct Hcases as [([?|?] & _)
                       |[(_ & _ & _ & _ & _ & Hab1 & Hrq1)
                        |(_ & ? & _)]]; try congruence.
    repeat split; try done.
    intros id. unfold put_by. rewrite Hlog, put_by_snoc.
    rewrite decide_False by done. apply app_nil_r. }
  assert (∀ evs' m', wf m' → aborted m' = true →
            aborted (steps m' evs') = true
            ∧ wf (steps m' evs')
            ∧ requests (steps m' evs') = requests m'
            ∧ (∀ id, put_by id (steps m' evs') = put_by id m')
            ∧ state (steps m' evs')
              = reduce_all (state m')
                  (omap (λ ev, match ev with
                               | Dispatch a' => Some a'
                               | Settle _ _ => None
                               end) evs')) as Hrun.
  { induction evs' as [|ev evs' IH]; intros m' Hwf' Hab'; [done|].
    change (steps m' (ev :: evs')) with (steps (step m' ev) evs').
    pose proof (aborted_step m' ev Hwf' Hab') as Hstep.
    pose proof (step_wf m' ev Hwf') as Hwfs.
    destruct ev as [a'|id r]; rewrite Hstep in Hwfs |- *.
    - destruct (IH (reduce FromUI a' m') Hwfs Hab') as (? & ? & Hrq & Hput & Hst).
      split; [done|]. split; [done|]. split; [done|]. split; [|done].
      intros id. by rewrite Hput, put_by_reduce.
    - by apply IH. }
  destruct (Hrun evs m1 Hwf1 Hab1) as (Hab2 & Hwf2 & Hrq2 & Hput2 & Hst2).
  fold m2 in Hab2, Hwf2, Hrq2, Hput2, Hst2.
  repeat split; try done.
  - intros w'. by apply (wf_aborted m2 Hwf2 Hab2).
  - congruence.
  - intros id. by rewrite Hput2.
  - simpl. by rewrite Hst2, Hst1.
Qed.

Lemma missing_payload_ends_sagas_witness :
  let m2 := steps init [Dispatch (logInStart VUndefined);
                        Dispatch (logInStart failing_credentials)] in
  aborted m2 = true ∧ requests m2 = [].
Proof.
  intros m2.
  destruct (missing_payload_ends_sagas init (logInStart VUndefined) OnLogInStart
              [Dispatch (logInStart failing_credentials)])
    as (_ & Hab & _ & Hrq & _).
  - exact reachable_init.
  - reflexivity.
  - reflexivity.
  - reflexivity.
  - split; [exact Hab | exact Hrq].
Defined.

(** X13.  A request counts once: when it has settled, a second
    settlement of the same request, whichever way, changes nothing. *)
Theorem settle_twice (m : middleware) (id : nat) (r r' : outcome) :
  reachable m →
  step (step m (Settle id r)) (Settle id r') = step m (Settle id r).
Proof.
  intros Hreach. pose proof (reachable_wf m Hreach) as Hwf.
  assert (waiting id (step m (Settle id r)) = None) as Hgone.
  { destruct (waiting id m) as [[w t]|] eqn:Hwait.
    - apply waiting_Some in Hwait as [Ht <-].
      destruct (wf_program m Hwf w t Ht (p_then (awaited t) r)) as (a & Hres & _).
      destruct (settle_put m w t r a Hwf Ht Hres) as (_ & _ & _ & _ & Hgone).
      by apply waiting_gone.
    - simpl. by rewrite Hwait. }
  set (m' := step m (Settle id r)) in *.
  simpl. by rewrite Hgone.
Qed.

Lemma settle_twice_witness :
  step failed_registration (Settle 0 (Resolved VNull)) = failed_registration.
Proof.
  apply (settle_twice (step init (Dispatch (registerStart failing_credentials)))
           0 (Rejected (VStr "duplicate email")) (Resolved VNull)).
  exists [Dispatch (registerStart failing_credentials)]. reflexivity.
Defined.

(** ** Whole flows *)

Section flows.
Implicit Types (a : gmap string val) (w : watcher) (m : middleware) (t : task).

Lemma logIn_resolves_object email password r user :
  p_then (logIn email password) r = Resolved user → ∃ o, user = VObj o.
Proof.
  destruct r as [response|e]; simpl; [|done]. unfold read.
  destruct (nullish response); [done|].
  destruct (nullish (field response "data")); [done|].
  intros [= <-]. by eexists.
Qed.

Lemma reachable_state_defined m : reachable m → or_initial (state m) = state m.
Proof.
  revert m. apply reachable_ind; [done|].
  intros m ev Hreach IH.
  destruct (step_cases m ev (reachable_wf m Hreach))
    as [[-> _]|(from & a & _ & -> & _)]; [done|].
  apply or_initial_authReducer.
Qed.

(** The requests of a lane's invocation, from its start on. *)
Lemma start_requests l c m evs :
  reachable m → aborted m = false → nullish c = false →
  requests_by (next_id m) (steps (step m (Dispatch (start l c))) evs)
  = [p_request (capability l c)].
Proof.
  intros Hreach Hab Hc. pose proof (reachable_wf m Hreach) as Hwf.
  destruct (start_step l c m Hab Hc) as (_ & _ & _ & _ & _ & Hnext & _ & Hrq).
  rewrite requests_by_steps; [|by apply step_wf|lia].
  unfold requests_by. rewrite Hrq, omap_app. simpl.
  rewrite decide_True by done.
  fold (requests_by (next_id m) m). by rewrite requests_by_fresh.
Qed.

(** A lane's invocation that is left alone until its request settles. *)
Lemma lane_settles l c m evs r :
  reachable m → aborted m = false → nullish c = false →
  Forall (quiet l (next_id m)) evs →
  let m2 := steps (step m (Dispatch (start l c))) evs in
  let m3 := step m2 (Settle (next_id m) r) in
  reachable m2
  ∧ running (lane_watcher l) (next_id m) m2 = true
  ∧ put_by (next_id m) m3 = [terminal l c (p_then (capability l c) r)]
  ∧ state m3 = authReducer (state m2) (terminal l c (p_then (capability l c) r))
  ∧ dispatches m2 (Settle (next_id m) r) (terminal l c (p_then (capability l c) r)).
Proof.
  intros Hreach Hab Hc Hq m2 m3.
  pose proof (reachable_wf m Hreach) as Hwf.
  destruct (start_step l c m Hab Hc) as (t & Ht & Hid & Haw & Hres & _).
  assert (reachable m2) as Hreach2.
  { by apply reachable_steps, reachable_step. }
  pose proof (reachable_wf m2 Hreach2) as Hwf2.
  assert (lastTask m2 (lane_watcher l) = Some t) as Ht2.
  { apply quiet_steps; [by apply step_wf|done|]. by rewrite Hid. }
  assert (resumed t (p_then (awaited t) r)
          = YieldPut (terminal l c (p_then (capability l c) r)) Return) as Hput.
  { by rewrite Hres, Haw. }
  destruct (settle_put m2 (lane_watcher l) t r _ Hwf2 Ht2 Hput)
    as (Hp & Hst & _).
  rewrite Hid in Hp, Hst.
  split; [done|]. split; [apply running_lastTask; by exists t|].
  split; [done|]. split; [done|].
  destruct (settle_spec m2 (lane_watcher l) t r Hwf2 Ht2) as (a & Ha & _ & _ & Heq).
  rewrite Hput in Ha. injection Ha as <-.
  exists (FromTask (next_id m)). rewrite <- Hid. rewrite Heq. simpl.
  by destruct (dispatch_spec (FromTask (tid t))
                 (terminal l c (p_then (capability l c) r)) m2) as (_ & -> & _).
Qed.

Lemma quiet_logOut l n : quiet l n (Dispatch logOut).
Proof. split; [by destruct l|by left]. Qed.
End flows.

(** X14.  A login from start to end.  In any reachable state with its
    sagas alive, LOG_IN_START with credentials makes one request, to
    [/login], with the email and the password of the credentials and nothing
    else of them.  If the invocation is left alone until the request settles
    and [logIn] resolves to a user, the saga puts LOG_IN_SUCCESS with that
    user: [currentUser] is the user, [error] is [null], the private route
    shows its component and the login form navigates to ["/"]. *)
Theorem login_flow_succeeds (m0 : middleware) (c user : val) (evs : list event)
    (r : outcome) :
  reachable m0 →
  aborted m0 = false →
  nullish c = false →
  let n := next_id m0 in
  Forall (quiet Login n) evs →
  p_then (logIn (field c "email") (field c "password")) r = Resolved user →
  let m3 := step (steps (step m0 (Dispatch (logInStart c))) evs) (Settle n r) in
  requests_by n m3
  = [{| url := "/login";
        body := VObj (<["password" := field c "password"]>
                        {[ "email" := field c "email" ]}) |}]
  ∧ put_by n m3 = [logInSuccess user]
  ∧ currentUser (state m3) = user
  ∧ error (state m3) = VNull
  ∧ PrivateRoute "Home" (currentUser (state m3)) = Element "Home"
  ∧ LogInForm.effect (currentUser (state m3)) = Some "/".
Proof.
  intros Hreach Hab Hc n Hq Hres m3.
  assert (put_by n m3 = [logInSuccess user]
          ∧ state m3
            = authReducer (state (steps (step m0 (Dispatch (logInStart c))) evs))
                (logInSuccess user)) as [Hput Hst].
  { destruct (lane_settles Login c m0 evs r Hreach Hab Hc Hq)
      as (_ & _ & Hput & Hst & _).
    change (capability Login c)
      with (logIn (field c "email") (field c "password")) in Hput, Hst.
    rewrite Hres in Hput, Hst. split; [exact Hput|exact Hst]. }
  assert (currentUser (state m3) = user) as Hu.
  { rewrite Hst, currentUser_authReducer. rewrite decide_True by done.
    apply action_payload_mk. }
  destruct (logIn_resolves_object _ _ _ _ Hres) as [o ->].
  split.
  { pose proof (start_requests Login c m0 (evs ++ [Settle n r]) Hreach Hab Hc) as Hrq.
    rewrite steps_app in Hrq. exact Hrq. }
  split; [done|]. split; [done|].
  split; [by rewrite Hst, error_authReducer, decide_True|].
  by rewrite Hu.
Qed.

Lemma login_flow_succeeds_witness :
  let c := VObj (<["password" := VStr "x"]> {[ "email" := VStr "a@b.com" ]}) in
  let response :=
    VObj {[ "data" := VObj (<["user" := VObj {[ "email" := VStr "a@b.com" ]}]>
                             {[ "accessToken" := VStr "t1" ]}) ]} in
  let m3 := steps init [Dispatch (logInStart c); Settle 0 (Resolved response)] in
  currentUser (state m3)
  = VObj (<["token" := VStr "t1"]> {[ "email" := VStr "a@b.com" ]}).
Proof.
  intros c response m3.
  destruct (login_flow_succeeds init c
              (VObj (<["token" := VStr "t1"]> {[ "email" := VStr "a@b.com" ]}))
              [] (Resolved response)) as (_ & _ & Hu & _).
  - exact reachable_init.
  - reflexivity.
  - reflexivity.
  - constructor.
  - vm_compute. reflexivity.
  - exact Hu.
Defined.

(** X15.  LOG_OUT does not cancel a login in flight.  Dispatched while
    the request of a login is pending, it resets the state, so that the
    private route redirects to [/login], and leaves the task running; when
    the request then resolves, the user is logged in again. *)
Theorem logOut_keeps_pending_login (m0 : middleware) (c user : val)
    (evs1 evs2 : list event) (r : outcome) :
  reachable m0 →
  aborted m0 = false →
  nullish c = false →
  let n := next_id m0 in
  Forall (quiet Login n) evs1 →
  Forall (quiet Login n) evs2 →
  p_then (logIn (field c "email") (field c "password")) r = Resolved user →
  let m2 := step (steps (step m0 (Dispatch (logInStart c))) evs1) (Dispatch logOut) in
  let m3 := step (steps m2 evs2) (Settle n r) in
  state m2 = INITIAL_STATE
  ∧ PrivateRoute "Home" (currentUser (state m2)) = Navigate "/login"
  ∧ running OnLogInStart n m2 = true
  ∧ put_by n m3 = [logInSuccess user]
  ∧ currentUser (state m3) = user
  ∧ PrivateRoute "Home" (currentUser (state m3)) = Element "Home".
Proof.
  intros Hreach Hab Hc n Hq1 Hq2 Hres m2 m3.
  assert (Forall (quiet Login n) (evs1 ++ [Dispatch logOut])) as Hq.
  { apply Forall_app. split; [done|]. constructor; [|constructor].
    apply quiet_logOut. }
  assert (state m2 = INITIAL_STATE) as Hst2.
  { destruct (dispatch_spec FromUI logOut
                (steps (step m0 (Dispatch (logInStart c))) evs1)) as (Hs & _).
    rewrite authReducer_logOut in Hs. exact Hs. }
  assert (running OnLogInStart n m2 = true) as Hrun.
  { destruct (lane_settles Login c m0 (evs1 ++ [Dispatch logOut]) r Hreach Hab Hc Hq)
      as (_ & H & _).
    rewrite steps_app in H. exact H. }
  assert (Forall (quiet Login n) ((evs1 ++ [Dispatch logOut]) ++ evs2)) as Hq'.
  { apply Forall_app. by split. }
  assert (put_by n m3 = [logInSuccess user]
          ∧ state m3 = authReducer (state (steps m2 evs2)) (logInSuccess user))
    as [Hput Hst].
  { destruct (lane_settles Login c m0 ((evs1 ++ [Dispatch logOut]) ++ evs2) r
                Hreach Hab Hc Hq') as (_ & _ & Hput & Hst & _).
    rewrite !steps_app in Hput, Hst.
    change (capability Login c)
      with (logIn (field c "email") (field c "password")) in Hput, Hst.
    rewrite Hres in Hput, Hst. split; [exact Hput|exact Hst]. }
  assert (currentUser (state m3) = user) as Hu.
  { rewrite Hst, currentUser_authReducer. rewrite decide_True by done.
    apply action_payload_mk. }
  destruct (logIn_resolves_object _ _ _ _ Hres) as [o ->].
  split; [done|]. split; [by rewrite Hst2|]. split; [done|].
  split; [done|]. split; [done|]. by rewrite Hu.
Qed.

Lemma logOut_keeps_pending_login_witness :
  let c := VObj (<["password" := VStr "x"]> {[ "email" := VStr "a@b.com" ]}) in
  let response := VObj {[ "data" := VObj {[ "accessToken" := VStr "t1" ]} ]} in
  let m3 := steps init [Dispatch (logInStart c); Dispatch logOut;
                        Settle 0 (Resolved response)] in
  currentUser (state m3) = VObj {[ "token" := VStr "t1" ]}.
Proof.
  intros c response m3.
  destruct (logOut_keeps_pending_login init c (VObj {[ "token" := VStr "t1" ]})
              [] [] (Resolved response)) as (_ & _ & _ & _ & Hu & _).
  - exact reachable_init.
  - reflexivity.
  - reflexivity.
  - constructor.
  - constructor.
  - vm_compute. reflexivity.
  - exact Hu.
Defined.

(** X16.  A registration from start to end.  In any reachable state with
    its sagas alive, REGISTER_START with credentials makes one request, to
    [/register].  If the invocation is left alone until the request
    resolves, the saga puts REGISTER_SUCCESS with a payload of exactly the
    four fields [email], [password], [firstName] and [lastName] of the
    credentials; [registerSuccess] becomes [true], so that the register form
    navigates to ["/"], while [currentUser] and [error] stay as they were;
    and a new task is running that has made one request, the [logIn] one for
    the email and the password. *)
Theorem register_flow_succeeds (m0 : middleware) (c v : val) (evs : list event) :
  reachable m0 →
  aborted m0 = false →
  nullish c = false →
  let n := next_id m0 in
  Forall (quiet Register n) evs →
  let m2 := steps (step m0 (Dispatch (registerStart c))) evs in
  let m3 := step m2 (Settle n (Resolved v)) in
  let n' := next_id m2 in
  ∃ o, put_by n m3 = [registerSuccess (VObj o)]
       ∧ dom o = {[ "email"; "password"; "firstName"; "lastName" ]}
       ∧ (∀ k, k ∈ dom o → o !! k = Some (field c k))
       ∧ requests_by n m3 = [p_request (capability Register c)]
       ∧ registerSuccess_flag (state m3) = VBool true
       ∧ RegisterForm.effect (registerSuccess_flag (state m3)) = Some "/"
       ∧ currentUser (state m3) = currentUser (state m2)
       ∧ error (state m3) = error (state m2)
       ∧ running OnRegisterSuccess n' m3 = true
       ∧ requests_by n' m3
         = [p_request (logIn (field c "email") (field c "password"))].
Proof.
  intros Hreach Hab Hc n Hq m2 m3 n'.
  set (o := <["lastName" := field c "lastName"]>
              (<["firstName" := field c "firstName"]>
                 (<["password" := field c "password"]>
                    ({[ "email" := field c "email" ]} : gmap string val)))).
  assert (reachable m2 ∧ running OnRegisterStart n m2 = true
          ∧ put_by n m3 = [registerSuccess (VObj o)]
          ∧ state m3 = authReducer (state m2) (registerSuccess (VObj o))
          ∧ dispatches m2 (Settle n (Resolved v)) (registerSuccess (VObj o)))
    as (Hreach2 & Hrun & Hput & Hst & Hd).
  { destruct (lane_settles Register c m0 evs (Resolved v) Hreach Hab Hc Hq)
      as (H1 & H2 & H3 & H4 & H5).
    split; [exact H1|]. split; [exact H2|]. split; [exact H3|].
    split; [exact H4|exact H5]. }
  pose proof (reachable_wf m2 Hreach2) as Hwf2.
  assert (aborted m2 = false) as Hab2.
  { apply running_lastTask in Hrun as (t & Ht & _).
    destruct (aborted m2) eqn:Hab2; [|done].
    by rewrite (wf_aborted m2 Hwf2 Hab2) in Ht. }
  assert (action_payload (registerSuccess (VObj o)) = VObj o) as Hpay
    by apply action_payload_mk.
  destruct (dispatches_forks m2 (Settle n (Resolved v)) (registerSuccess (VObj o))
              OnRegisterSuccess Hwf2 Hab2 Hd)
    as (p & k & Hwk & Hsl & Hrq & Hnext); [done|by rewrite Hpay|].
  fold m3 in Hsl, Hrq, Hnext. fold n' in Hsl, Hrq, Hnext.
  rewrite worker_afterRegister in Hwk by (by rewrite Hpay).
  rewrite Hpay in Hwk. injection Hwk as <- <-.
  assert (field (VObj o) "email" = field c "email") as He.
  { unfold o. by vm_compute. }
  assert (field (VObj o) "password" = field c "password") as Hp.
  { unfold o. by vm_compute. }
  rewrite He, Hp in Hsl, Hrq.
  exists o. split; [done|]. split.
  { unfold o. rewrite !dom_insert_L, dom_singleton_L. set_solver. }
  split.
  { intros k Hk. unfold o in Hk. rewrite !dom_insert_L, dom_singleton_L in Hk.
    unfold o.
    assert (k = "lastName" ∨ k = "firstName" ∨ k = "password" ∨ k = "email")
      as Hcase by set_solver.
    destruct Hcase as [Hk'|[Hk'|[Hk'|Hk']]]; subst k; by vm_compute. }
  split.
  { pose proof (start_requests Register c m0 (evs ++ [Settle n (Resolved v)])
                  Hreach Hab Hc) as H.
    rewrite steps_app in H. exact H. }
  assert (registerSuccess_flag (state m3) = VBool true) as Hflag.
  { rewrite Hst, registerSuccess_flag_authReducer.
    rewrite decide_False by done. by rewrite decide_True. }
  split; [done|]. split; [by rewrite Hflag|].
  split.
  { rewrite Hst, currentUser_authReducer. rewrite !decide_False by done.
    by rewrite reachable_state_defined. }
  split.
  { rewrite Hst, error_authReducer. rewrite decide_False by done.
    rewrite decide_False by (by intros [?|?]). rewrite decide_False by done.
    by rewrite reachable_state_defined. }
  split; [apply running_lastTask; by eexists|].
  unfold requests_by. rewrite Hrq, omap_app. simpl.
  rewrite decide_True by done.
  fold (requests_by n' m2). by rewrite requests_by_fresh.
Qed.

Lemma register_flow_succeeds_witness :
  let m3 := steps init [Dispatch (registerStart failing_credentials);
                        Settle 0 (Resolved VUndefined)] in
  registerSuccess_flag (state m3) = VBool true
  ∧ running OnRegisterSuccess 1 m3 = true.
Proof.
  intros m3.
  destruct (register_flow_succeeds init failing_credentials VUndefined [])
    as (o & _ & _ & _ & _ & Hflag & _ & _ & _ & Hrun & _).
  - exact reachable_init.
  - reflexivity.
  - reflexivity.
  - constructor.
  - split; [exact Hflag | exact Hrun].
Defined.

(** ** The components and the store *)

Section components.
Implicit Types (a c : gmap string val) (w : watcher) (m : middleware) (t : task).

Lemma well_formed_step m ev :
  wf m → aborted m = false → well_formed ev → aborted (step m ev) = false.
Proof.
  intros Hwf Hab Hev.
  destruct (step_cases m ev Hwf)
    as [[-> _]|(from & a & _ & _ & Hfrom & Hfork)]; [done|].
  destruct Hfork as [(_ & _ & [?|(-> & (w & Hw) & Hn & _)])|(_ & ? & _)];
    [congruence| |done].
  destruct Hfrom as [[_ ->]|(? & ? & ? & _ & ? & _)]; [|done].
  destruct Hev; congruence.
Qed.

Lemma from_components_well_formed ev : from_components ev → well_formed ev.
Proof.
  destruct ev as [a|id r]; [|done]. simpl.
  intros [->|[[c Hin]|[c Hin]]].
  - by left.
  - unfold LogInForm.handleSubmit in Hin.
    destruct (_ && _); [|by apply elem_of_nil in Hin].
    apply list_elem_of_singleton in Hin as ->.
    right. unfold logInStart. by rewrite action_payload_mk.
  - simpl in Hin. apply list_elem_of_singleton in Hin as ->.
    right. unfold registerStart. by rewrite action_payload_mk.
Qed.

(** What the forms can have in their fields: [username] is not among the
    inputs, and every input holds a string. *)
Lemma typed_register changes :
  Forall (λ ch : string * string, ch.1 ∈ RegisterForm.inputs) changes →
  typed RegisterForm.credentials changes !! "username" = None
  ∧ ∀ input, input ∈ RegisterForm.inputs →
      ∃ s, typed RegisterForm.credentials changes !! input = Some (VStr s).
Proof.
  intros Hch. unfold typed.
  assert (RegisterForm.credentials !! "username" = None
          ∧ ∀ input, input ∈ RegisterForm.inputs →
              ∃ s, RegisterForm.credentials !! input = Some (VStr s)) as Hinit.
  { split; [done|]. intros input Hin. unfold RegisterForm.inputs in Hin.
    repeat (apply elem_of_cons in Hin as [->|Hin]; [by eexists|]).
    by apply elem_of_nil in Hin. }
  revert Hinit. generalize RegisterForm.credentials as c.
  induction Hch as [|[name value] changes Hname _ IH]; intros c [Hu Hc]; [done|].
  simpl. apply IH. unfold handleChange. simpl in Hname. split.
  - rewrite lookup_insert_ne; [done|]. intros ->.
    unfold RegisterForm.inputs in Hname.
    repeat (apply elem_of_cons in Hname as [?|Hname]; [done|]).
    by apply elem_of_nil in Hname.
  - intros input Hin. destruct (decide (name = input)) as [->|Hne].
    + rewrite lookup_insert_eq. by eexists.
    + rewrite lookup_insert_ne by done. by apply Hc.
Qed.
End components.

(** X17.  Nothing the components dispatch can end the sagas: the forms
    dispatch their start actions with the credentials object as payload, and
    the logout button an action no watcher takes.  So from a state with its
    sagas alive, any run of form submissions, logouts and settled requests
    leaves them alive. *)
Theorem components_keep_sagas_alive (m : middleware) (evs : list event) :
  reachable m →
  aborted m = false →
  Forall from_components evs →
  aborted (steps m evs) = false.
Proof.
  intros Hreach Hab Hevs. revert m Hreach Hab.
  induction Hevs as [|ev evs Hev _ IH]; intros m Hreach Hab; [done|].
  simpl. apply IH; [by apply reachable_step|].
  apply well_formed_step; [by apply reachable_wf|done|].
  by apply from_components_well_formed.
Qed.

Lemma components_keep_sagas_alive_witness :
  aborted (steps init [Dispatch (registerStart (VObj RegisterForm.credentials));
                       Dispatch logOut; Settle 0 (Rejected VNull)]) = false.
Proof.
  apply (components_keep_sagas_alive init).
  - exact reachable_init.
  - reflexivity.
  - constructor; [|constructor; [|constructor; [|constructor]]].
    + right. right. exists RegisterForm.credentials. simpl.
      apply list_elem_of_here.
    + left. reflexivity.
    + exact I.
Defined.

(** X18.  Submitting the login form with an empty email or password does
    nothing at all; otherwise it starts one login, whose request to
    [/login] carries the email and the password of the form. *)
Theorem logIn_form_submit (m : middleware) (c : gmap string val) :
  reachable m →
  aborted m = false →
  let m' := steps m (Dispatch <$> LogInForm.handleSubmit c) in
  if truthy (field (VObj c) "email") && truthy (field (VObj c) "password")
  then requests m'
       = requests m
         ++ [(next_id m,
              {| url := "/login";
                 body := VObj (<["password" := field (VObj c) "password"]>
                                 {[ "email" := field (VObj c) "email" ]}) |})]
       ∧ running OnLogInStart (next_id m) m' = true
       ∧ dispatched m' = dispatched m ++ [(FromUI, logInStart (VObj c))]
  else m' = m.
Proof.
  intros Hreach Hab m'. subst m'. unfold LogInForm.handleSubmit.
  destruct (_ && _); [|done]. simpl.
  destruct (start_step Login (VObj c) m Hab) as (t & Ht & Hid & _ & _ & _ & _ & Hrq);
    [done|].
  split; [exact Hrq|]. split.
  - apply running_lastTask. by exists t.
  - by destruct (dispatch_spec FromUI (logInStart (VObj c)) m) as (_ & -> & _).
Qed.

Lemma logIn_form_submit_witness :
  steps init (Dispatch <$> LogInForm.handleSubmit LogInForm.credentials) = init
  ∧ running OnLogInStart 0
      (steps init (Dispatch <$> LogInForm.handleSubmit
                     (typed LogInForm.credentials
                        [("email", "a@b.com"); ("password", "x")]))) = true.
Proof.
  split.
  - apply (logIn_form_submit init LogInForm.credentials).
    + exact reachable_init.
    + reflexivity.
  - destruct (logIn_form_submit init
                (typed LogInForm.credentials [("email", "a@b.com"); ("password", "x")]))
      as (_ & Hrun & _).
    + exact reachable_init.
    + reflexivity.
    + exact Hrun.
Defined.

(** X19.  The register form dispatches whatever its fields hold: even
    with every field empty, submitting it starts a registration, whose
    request to [/register] carries the four fields as they are. *)
Theorem register_form_submit (m : middleware) (c : gmap string val) :
  reachable m →
  aborted m = false →
  let m' := steps m (Dispatch <$> (RegisterForm.handleSubmit c).2) in
  (RegisterForm.handleSubmit c).1 = true
  ∧ requests m'
    = requests m
      ++ [(next_id m,
           {| url := "/register";
              body := VObj (<["lastName" := field (VObj c) "lastName"]>
                            (<["firstName" := field (VObj c) "firstName"]>
                             (<["password" := field (VObj c) "password"]>
                              {[ "email" := field (VObj c) "email" ]}))) |})]
  ∧ running OnRegisterStart (next_id m) m' = true
  ∧ dispatched m' = dispatched m ++ [(FromUI, registerStart (VObj c))].
Proof.
  intros Hreach Hab m'. subst m'. simpl.
  destruct (start_step Register (VObj c) m Hab) as (t & Ht & Hid & _ & _ & _ & _ & Hrq);
    [done|].
  split; [done|]. split; [exact Hrq|]. split.
  - apply running_lastTask. by exists t.
  - by destruct (dispatch_spec FromUI (registerStart (VObj c)) m) as (_ & -> & _).
Qed.

Lemma register_form_submit_witness :
  requests (steps init (Dispatch <$> (RegisterForm.handleSubmit
                                        RegisterForm.credentials).2))
  = [(0, {| url := "/register";
            body := VObj (<["lastName" := VStr ""]>
                          (<["firstName" := VStr ""]>
                           (<["password" := VStr ""]>
                            {[ "email" := VStr "" ]}))) |})].
Proof.
  destruct (register_form_submit init RegisterForm.credentials) as (_ & Hrq & _).
  - exact reachable_init.
  - reflexivity.
  - exact Hrq.
Defined.

(** X20.  In the register form the group of the email input takes its
    class from [credentials.username], which no input sets: once the form
    has been submitted that group is marked [has-error] whatever email has
    been typed, while its help text shows for an empty email only.  The
    other three groups are marked exactly when their help text shows. *)
Theorem register_email_group_always_in_error (changes : list (string * string)) :
  Forall (λ ch, ch.1 ∈ RegisterForm.inputs) changes →
  let c := typed RegisterForm.credentials changes in
  RegisterForm.group_className true c "email" = "form-group has-error"
  ∧ (RegisterForm.help_block true c "email" = true
     ↔ field (VObj c) "email" = VStr "")
  ∧ ∀ input, input ∈ RegisterForm.inputs → input ≠ "email" →
      (RegisterForm.group_className true c input = "form-group has-error"
       ↔ RegisterForm.help_block true c input = true).
Proof.
  intros Hch c. destruct (typed_register changes Hch) as [Hu Hin].
  fold c in Hu, Hin.
  split.
  { unfold RegisterForm.group_className. rewrite decide_True by done.
    unfold field. simpl. by rewrite Hu. }
  split.
  { destruct (Hin "email") as [s Hs].
    { unfold RegisterForm.inputs. set_solver. }
    unfold RegisterForm.help_block, field. simpl. rewrite Hs. simpl.
    destruct s; simpl; split; intros H; by simplify_eq. }
  intros input Hi Hne. destruct (Hin input Hi) as [s Hs].
  unfold RegisterForm.group_className, RegisterForm.help_block.
  rewrite decide_False by done. unfold field. simpl. rewrite Hs. simpl.
  destruct s; simpl; split; intros H; by simplify_eq.
Qed.

Lemma register_email_group_always_in_error_witness :
  let c := typed RegisterForm.credentials [("email", "a@b.com")] in
  RegisterForm.group_className true c "email" = "form-group has-error"
  ∧ RegisterForm.help_block true c "email" = false.
Proof.
  intros c.
  destruct (register_email_group_always_in_error [("email", "a@b.com")])
    as (Hclass & _).
  - constructor; [|constructor]. simpl. unfold RegisterForm.inputs.
    apply list_elem_of_further, list_elem_of_further, list_elem_of_here.
  - split; [exact Hclass|reflexivity].
Defined.


(** X22.  In the running application [registerSuccess], once [true],
    stays [true] until the user interface dispatches LOG_OUT, whatever else
    is dispatched and whatever settles: no saga puts LOG_OUT.  Until then
    the register form navigates to ["/"] each time its effect runs. *)
Theorem registerSuccess_until_logOut (m : middleware) (evs : list event) :
  reachable m →
  registerSuccess_flag (state m) = VBool true →
  Forall (never_dispatches LOG_OUT) evs →
  registerSuccess_flag (state (steps m evs)) = VBool true
  ∧ RegisterForm.effect (registerSuccess_flag (state (steps m evs))) = Some "/".
Proof.
  intros Hreach Hflag Hevs.
  assert (registerSuccess_flag (state (steps m evs)) = VBool true) as H;
    [|by rewrite H].
  revert m Hreach Hflag.
  induction Hevs as [|ev evs Hev _ IH]; intros m Hreach Hflag; [done|].
  simpl. apply IH; [by apply reachable_step|].
  pose proof (reachable_wf m Hreach) as Hwf.
  destruct (step_cases m ev Hwf)
    as [[-> _]|(from & a & _ & -> & Hfrom & _)]; [done|].
  assert (action_type a ≠ Some LOG_OUT) as Hout.
  { destruct Hfrom as [[_ ->]|(w & t & r & _ & _ & Ht & Hres & _)]; [done|].
    destruct (reachable_from_worker m Hreach w t Ht) as (a0 & _ & Hwk).
    destruct (worker_puts w a0 _ _ _ a Return Hwk Hres) as [H|[H|[H|H]]];
      rewrite H; discriminate. }
  rewrite registerSuccess_flag_authReducer. rewrite decide_False by done.
  case_decide; [done|]. by rewrite reachable_state_defined.
Qed.

Lemma registerSuccess_until_logOut_witness :
  let m := steps init [Dispatch (registerStart failing_credentials);
                       Settle 0 (Resolved VUndefined)] in
  registerSuccess_flag
    (state (steps m [Settle 1 (Rejected VNull);
                     Dispatch (logInStart failing_credentials)]))
  = VBool true.
Proof.
  intros m.
  destruct (registerSuccess_until_logOut m
              [Settle 1 (Rejected VNull); Dispatch (logInStart failing_credentials)])
    as [H _].
  - exists [Dispatch (registerStart failing_credentials);
            Settle 0 (Resolved VUndefined)]. reflexivity.
  - vm_compute. reflexivity.
  - constructor; [exact I|constructor; [discriminate|constructor]].
  - exact H.
Defined.

(** ** The third watcher *)

(** X23.  [onRegisterSuccess] takes the latest too: when REGISTER_SUCCESS
    is dispatched with credentials while the login that followed an earlier
    registration is still waiting for its request, that login is cancelled
    and never puts an action, whatever happens afterwards; the new login is
    the one that runs. *)
Theorem second_registerSuccess_supersedes (m : middleware) (ev : event) (c : val)
    (n1 : nat) (evs : list event) :
  reachable m →
  running OnRegisterSuccess n1 m = true →
  nullish c = false →
  dispatches m ev (registerSuccess c) →
  running OnRegisterSuccess (next_id m) (step m ev) = true
  ∧ n1 < next_id m
  ∧ put_by n1 (steps (step m ev) evs) = [].
Proof.
  intros Hreach Hrun Hc Hd.
  pose proof (reachable_wf m Hreach) as Hwf.
  pose proof (step_wf m ev Hwf) as Hwf'.
  apply running_lastTask in Hrun as (t1 & Ht1 & Hid1).
  assert (aborted m = false) as Hab.
  { destruct (aborted m) eqn:Hab; [|done].
    by rewrite (wf_aborted m Hwf Hab) in Ht1. }
  pose proof (wf_fresh m Hwf _ _ Ht1) as Hlt. rewrite Hid1 in Hlt.
  assert (action_payload (registerSuccess c) = c) as Hpay
    by apply action_payload_mk.
  destruct (dispatches_forks m ev (registerSuccess c) OnRegisterSuccess Hwf Hab Hd)
    as (p & k & _ & Hsl & _ & Hnext); [done|by rewrite Hpay|].
  split; [apply running_lastTask; by eexists|]. split; [done|].
  assert (∀ w t, lastTask (step m ev) w = Some t → tid t ≠ n1) as Hgone.
  { intros w t Ht Hid.
    assert (lastTask m w = Some t) as Hold.
    { apply (old_task_step m ev); [done..|]. lia. }
    assert (w = OnRegisterSuccess) as ->.
    { eapply (wf_distinct m Hwf); eauto. congruence. }
    rewrite Hsl in Ht. injection Ht as <-. simpl in Hid. lia. }
  rewrite gone_steps; [|done|lia|done].
  destruct (step_cases m ev Hwf)
    as [[-> _]|(from & a & Hlog & _ & Hfrom & _)].
  { rewrite <- Hid1. by apply (wf_silent m Hwf OnRegisterSuccess). }
  unfold put_by. rewrite Hlog, put_by_snoc. fold (put_by n1 m).
  rewrite <- Hid1 at 1. rewrite (wf_silent m Hwf _ _ Ht1). simpl.
  case_decide as Hfr; [|done]. exfalso.
  destruct Hfrom as [[? _]|(w & t & r & _ & -> & Ht & _ & Hben & _)]; [congruence|].
  injection Hfr as Hfr.
  assert (w = OnRegisterSuccess) as ->.
  { eapply (wf_distinct m Hwf); eauto. congruence. }
  destruct Hd as [from' Hd]. rewrite Hlog in Hd.
  apply app_inj_tail in Hd as [_ [= _ ->]].
  by destruct Hben as [?|(? & _)].
Qed.

Lemma second_registerSuccess_supersedes_witness :
  let c := VObj (<["password" := VStr "y"]> {[ "email" := VStr "c@d.com" ]}) in
  put_by 0 (steps init [Dispatch (registerSuccess c); Dispatch (registerSuccess c);
                        Settle 0 (Rejected VNull)]) = [].
Proof.
  intros c.
  destruct (second_registerSuccess_supersedes
              (step init (Dispatch (registerSuccess c)))
              (Dispatch (registerSuccess c)) c 0 [Settle 0 (Rejected VNull)])
    as (_ & _ & H).
  - exists [Dispatch (registerSuccess c)]. reflexivity.
  - reflexivity.
  - reflexivity.
  - exists FromUI. vm_compute. reflexivity.
  - exact H.
Defined.
